(** * TrendRadar custom sources: fetch, normalise, dedup, reshape

    A shallow embedding of [sources.py].  Python values are modelled as the
    code uses them:

    - a [str] is the sequence of its code points, here a [string] whose
      characters are the code points below 256;
    - a [dict] used as a mapping is a [gmap], a [set] is a [gset];
    - an item dict is a record of its seven keys, each read the way the code
      reads it ([it.get(k)], [it.get(k) or ''], [it.get(k, default)]);
    - a function that can raise returns a [result];
    - libraries the code calls (Unicode NFKC, OpenCC, RapidFuzz, dateutil,
      [time.mktime], MD5) are fields of an environment record [Env]. *)

From Stdlib Require Import ZArith QArith Qround Lqa Ascii.
From stdpp Require Import base gmap sets list strings fin_maps pretty.

Local Open Scope Z_scope.

(** ** Python values and exceptions *)

(** A Python float: either not-a-number, an infinity, or a finite double,
    kept by its exact rational value. *)
Inductive PyFloat :=
  | FNan
  | FInf (negative : bool)
  | FFin (q : Q).

(** The values a JSON document, a feed or an item dict can hold in the fields
    the code reads.  [PObj truthy] stands for a list or dict, of which the
    code only ever tests the truth value and the type. *)
Inductive PyVal :=
  | PNone
  | PBool (b : bool)
  | PInt (n : Z)
  | PFloat (f : PyFloat)
  | PStr (s : string)
  | PObj (truthy : bool).

Inductive PyExn :=
  | ValueError
  | OverflowError
  | TypeError
  | AttributeError
  | KeyError
  | HTTPStatusError
  | IndexError
  | TransportError
  | JSONDecodeError.

Inductive result (A : Type) :=
  | Ok (a : A)
  | Raise (e : PyExn).
Arguments Ok {A} a.
Arguments Raise {A} e.

(** [result] is a monad; stdpp's [x ← r; k] sequences calls that may raise. *)
#[global] Instance result_ret : MRet result := fun _ a => Ok a.
#[global] Instance result_bind : MBind result := fun _ _ k r =>
  match r with
  | Ok a => k a
  | Raise e => Raise e
  end.

(** ** Strings *)

(** [bool(s)] for a str. *)
Definition truthy_str (s : string) : bool :=
  match s with
  | EmptyString => false
  | String _ _ => true
  end.

(** [str.isspace] on one code point below 256: TAB..CR, FS..US, SPACE,
    NEL and NO-BREAK SPACE. *)
Definition py_isspace (c : ascii) : bool :=
  let n := N_of_ascii c in
  ((9 <=? n) && (n <=? 13) || (28 <=? n) && (n <=? 32) || (n =? 133) || (n =? 160))%N.

Fixpoint lstrip (s : string) : string :=
  match s with
  | EmptyString => EmptyString
  | String c s' => if py_isspace c then lstrip s' else s
  end.

Fixpoint rstrip (s : string) : string :=
  match s with
  | EmptyString => EmptyString
  | String c s' =>
      match rstrip s' with
      | EmptyString => if py_isspace c then EmptyString else String c EmptyString
      | r => String c r
      end
  end.

(** [s.strip()] *)
Definition strip (s : string) : string := rstrip (lstrip s).

(** [str.lower] on one code point below 256: A..Z and the Latin-1 capitals
    (all of 0xC0..0xDE but the multiplication sign) move up by 32. *)
Definition lower_char (c : ascii) : ascii :=
  let n := N_of_ascii c in
  if ((65 <=? n) && (n <=? 90) || (192 <=? n) && (n <=? 222) && negb (n =? 215))%N
  then ascii_of_N (n + 32) else c.

Fixpoint lower (s : string) : string :=
  match s with
  | EmptyString => EmptyString
  | String c s' => String (lower_char c) (lower s')
  end.

(** [c.isdigit()] below 256: the decimal digits and the superscripts
    two, three and one. *)
Definition py_isdigit_char (c : ascii) : bool :=
  let n := N_of_ascii c in
  ((48 <=? n) && (n <=? 57) || (n =? 178) || (n =? 179) || (n =? 185))%N.

Fixpoint all_chars (p : ascii → bool) (s : string) : bool :=
  match s with
  | EmptyString => true
  | String c s' => p c && all_chars p s'
  end.

(** [s.isdigit()]: non-empty and every character a digit character. *)
Definition isdigit (s : string) : bool :=
  truthy_str s && all_chars py_isdigit_char s.

Definition is_decimal_char (c : ascii) : bool :=
  let n := N_of_ascii c in ((48 <=? n) && (n <=? 57))%N.

Fixpoint decimal_value (acc : Z) (s : string) : Z :=
  match s with
  | EmptyString => acc
  | String c s' => decimal_value (10 * acc + (Z.of_N (N_of_ascii c) - 48)) s'
  end.

(** [int(s)] for a string that passed [isdigit]: such a string has no sign,
    blank or underscore, so [int] accepts it exactly when every character
    is a decimal digit, and raises ValueError on a superscript. *)
Definition int_of_digits (s : string) : result Z :=
  if all_chars is_decimal_char s then Ok (decimal_value 0 s) else Raise ValueError.

(** ** Data *)

(** [time.struct_time], the nine fields of a broken-down time. *)
Record struct_time := {
  tm_year : Z; tm_mon : Z; tm_mday : Z;
  tm_hour : Z; tm_min : Z; tm_sec : Z;
  tm_wday : Z; tm_yday : Z; tm_isdst : Z
}.

(** The dataclass [Item]. *)
Module Item.
Record t := {
  title : string;
  url : string;
  ts : Z;
  rank : PyVal;
  source : string;
  source_key : string;
  id : string
}.
End Item.

(** An item dict.  [None] in a field is a key that is absent or holds
    [None]; the rank is any value. *)
Record ItemDict := {
  get_title : option string;
  get_url : option string;
  get_ts : option Z;
  get_rank : PyVal;
  get_source : option string;
  get_source_key : option string;
  get_id : option string
}.

(** [x or ''] *)
Definition or_empty (x : option string) : string := default "" x.

(** A source config dict.  A field is [None] when its key is absent;
    [cfg_rpm] is [rate_limit.rpm]. *)
Record SourceCfg := {
  cfg_type : option string;
  cfg_key : option string;
  cfg_name : option string;
  cfg_rpm : option Q
}.

(** The attributes [BaseSource.__init__] sets from the config; the lock and
    [_last] are run-time state, see [Limiter]. *)
Record BaseSource := {
  cfg : SourceCfg;
  key : string;
  name : string;
  min_interval : Q
}.

Inductive Source :=
  | RestSource (self : BaseSource)
  | RssSource (self : BaseSource)
  | HtmlSource (self : BaseSource).

(** State of the loop of [dedup_items]. *)
Record DedupState := {
  seen_url : gset string;
  seen_title : gmap string Z;
  out : list ItemDict
}.

Definition dedup_init : DedupState :=
  {| seen_url := ∅; seen_title := ∅; out := [] |}.

(** An entry of [custom_to_results]: [{"ranks": [...], "url": ..., "mobileUrl": ...}]. *)
Record Entry := {
  ranks : list Z;
  url : string;
  mobileUrl : string
}.

(** ** Environment: the libraries behind the code *)

Record Env := {
  (** [unicodedata.normalize("NFKC", s)] *)
  nfkc : string → string;
  (** the module global [_opencc]: [None] when OpenCC is not installed,
      else its [convert], which may raise *)
  _opencc : option (string → result string);
  (** the module global [fuzz]: [None] when RapidFuzz is not installed,
      else [fuzz.token_set_ratio] *)
  fuzz : option (string → string → Q);
  (** [int(dtparser.parse(v).timestamp())] *)
  dtparse : string → result Z;
  (** [hashlib.md5(s.encode("utf-8", "ignore")).hexdigest()] *)
  md5_hex : string → string;
  (** [int(v // 1000)] on a finite double [v] above 1e12 *)
  float_floordiv_1000 : Q → Z;
  (** [int(time.mktime(t))] in the local time zone; may raise OverflowError *)
  mktime : struct_time → result Z;
  (** [urllib.parse.urljoin(base, url)] *)
  urljoin : string → string → string
}.

(** ** Text and item records *)

Section Sources.

Variable E : Env.

Definition normalize_text (s : string) (use_opencc : bool) : string :=
  if negb (truthy_str s) then ""
  else
    let t := nfkc E s in
    let t :=
      match (if use_opencc then _opencc E else None) with
      | Some convert =>
          match convert t with
          | Ok t' => t'
          | Raise _ => t
          end
      | None => t
      end in
    strip t.

Definition _title_key (title : string) : string := normalize_text title true.

(** ** Timestamps and ids *)

(** [bool(v)] *)
Definition truthy (v : PyVal) : bool :=
  match v with
  | PNone => false
  | PBool b => b
  | PInt n => negb (n =? 0)
  | PFloat (FFin q) => negb (Qeq_bool q 0)
  | PFloat _ => true
  | PStr s => truthy_str s
  | PObj t => t
  end.

(** [int(x)] on a finite double: truncation towards zero. *)
Definition int_of_Q (q : Q) : Z := Z.quot (Qnum q) (Z.pos (Qden q)).

(** [parse_ts(v)]; [now] is what [_now_ts()] returns at the call.  A bool
    is an int in Python and takes the numeric branch.  On a float the
    branch ends in [int(...)], which raises on NaN and on an infinity
    ([inf // 1000] is NaN). *)
Definition parse_ts (now : Z) (v : PyVal) : result Z :=
  match v with
  | PNone => Ok now
  | PBool b => Ok (if b then 1 else 0)
  | PInt n => Ok (if 10 ^ 12 <? n then n `div` 1000 else n)
  | PFloat FNan => Raise ValueError
  | PFloat (FInf false) => Raise ValueError
  | PFloat (FInf true) => Raise OverflowError
  | PFloat (FFin q) =>
      Ok (if Qle_bool q (inject_Z (10 ^ 12)) then int_of_Q q else float_floordiv_1000 E q)
  | PStr s =>
      match dtparse E s with
      | Ok t => Ok t
      | Raise _ => Ok now
      end
  | PObj _ => Ok now
  end.

Definition make_id (source_key title url : string) : string :=
  md5_hex E (source_key +:+ "|" +:+ normalize_text title false +:+ "|" +:+ url).

(** ** Sources *)

(** [BaseSource.__init__] *)
Definition BaseSource_init (c : SourceCfg) : BaseSource :=
  let k :=
    match cfg_key c with
    | Some k' => if truthy_str k' then k' else
        match cfg_name c with
        | Some n => if truthy_str n then n else "custom"
        | None => "custom"
        end
    | None =>
        match cfg_name c with
        | Some n => if truthy_str n then n else "custom"
        | None => "custom"
        end
    end in
  {| cfg := c;
     key := k;
     name := default k (cfg_name c);
     min_interval :=
       match cfg_rpm c with
       | Some rpm => if Qeq_bool rpm 0 then 0%Q else (60 / rpm)%Q
       | None => 0%Q
       end |}.

(** [self._mk_item(title, url, ts, rank)].  The adapters pass whatever they
    extracted: [normalize_text] returns [''] on a falsy title and hands any
    other non-str to [unicodedata.normalize], which raises TypeError;
    [(url or '').strip()] raises AttributeError on a truthy non-str. *)
Definition _mk_item (self : BaseSource) (now : Z)
    (title url ts rank : PyVal) : result Item.t :=
  title' ← match title with
           | PStr s => Ok (normalize_text s true)
           | v => if truthy v then Raise TypeError else Ok ""
           end;
  url' ← match url with
         | PStr s => Ok (strip s)
         | v => if truthy v then Raise AttributeError else Ok (strip "")
         end;
  ts' ← parse_ts now ts;
  Ok {| Item.title := title';
        Item.url := url';
        Item.ts := ts';
        Item.rank := rank;
        Item.source := name self;
        Item.source_key := key self;
        Item.id := make_id (key self) title' url' |}.

(** One element of the list the REST adapter extracted, as the four
    [_safe_get] calls return it, with the clock reading at that element. *)
Record RestRow := {
  row_title : PyVal;
  row_url : PyVal;
  row_ts : PyVal;
  row_rank : PyVal;
  row_now : Z
}.

(** What the request of a REST source yields: an exception (missing
    [endpoint] or [extract], transport error, [raise_for_status], a body
    that is not JSON), or the extracted list. *)
Inductive RestResponse :=
  | RestFails (e : PyExn)
  | RestList (lst : list RestRow).

(** The [for it in lst] loop of [RestSource.fetch]. *)
Fixpoint rest_loop (self : BaseSource) (lst : list RestRow)
    (items : list Item.t) : result (list Item.t) :=
  match lst with
  | [] => Ok items
  | it :: lst' =>
      if negb (truthy (row_title it)) || negb (truthy (row_url it))
      then rest_loop self lst' items
      else
        x ← _mk_item self (row_now it) (row_title it) (row_url it) (row_ts it) (row_rank it);
        rest_loop self lst' (items ++ [x])
  end.

Definition RestSource_fetch (self : BaseSource) (r : RestResponse) : result (list Item.t) :=
  match r with
  | RestFails e => Raise e
  | RestList lst => rest_loop self lst []
  end.

(** One entry of a parsed feed. *)
Record FeedEntry := {
  e_title : option string;
  e_link : option string;
  e_published_parsed : option struct_time;
  e_now : Z
}.

Inductive RssResponse :=
  | RssFails (e : PyExn)
  | RssFeed (entries : list FeedEntry).

(** An entry passes [if not title or not url: continue]. *)
Definition rss_kept (e : FeedEntry) : bool :=
  truthy_str (or_empty (e_title e)) && truthy_str (or_empty (e_link e)).

(** The [for e in feed.entries] loop of [RssSource.fetch]. *)
Fixpoint rss_loop (self : BaseSource) (entries : list FeedEntry)
    (items : list Item.t) : result (list Item.t) :=
  match entries with
  | [] => Ok items
  | e :: entries' =>
      let title := or_empty (e_title e) in
      let url := or_empty (e_link e) in
      if negb (truthy_str title) || negb (truthy_str url)
      then rss_loop self entries' items
      else
        ts ← match e_published_parsed e with
             | Some p => mktime E p
             | None => Ok 0
             end;
        x ← _mk_item self (e_now e) (PStr title) (PStr url) (PInt ts) PNone;
        rss_loop self entries' (items ++ [x])
  end.

Definition RssSource_fetch (self : BaseSource) (r : RssResponse) : result (list Item.t) :=
  match r with
  | RssFails e => Raise e
  | RssFeed entries => rss_loop self entries []
  end.


(** One node selected by [html.item]: the title read from it (its text or
    the [title_attr] attribute), its [url_attr] attribute (or ['']), and the
    timestamp text when [ts_selector] is set and matches. *)
Record HtmlNode := {
  n_title : string;
  n_url : string;
  n_ts : option string;
  n_now : Z
}.

Inductive HtmlResponse :=
  | HtmlFails (e : PyExn)
  | HtmlPage (ep : string) (nodes : list HtmlNode).

(** The [for a in soup.select(item_sel)] loop of [HtmlSource.fetch]. *)
Fixpoint html_loop (self : BaseSource) (ep : string) (nodes : list HtmlNode)
    (items : list Item.t) : result (list Item.t) :=
  match nodes with
  | [] => Ok items
  | a :: nodes' =>
      let title := n_title a in
      let url := n_url a in
      let url :=
        if truthy_str url && negb (String.prefix "http://" url || String.prefix "https://" url)
        then urljoin E ep url else url in
      if negb (truthy_str title) || negb (truthy_str url)
      then html_loop self ep nodes' items
      else
        let ts_val := match n_ts a with Some s => PStr s | None => PNone end in
        x ← _mk_item self (n_now a) (PStr title) (PStr url) ts_val PNone;
        html_loop self ep nodes' (items ++ [x])
  end.

Definition HtmlSource_fetch (self : BaseSource) (r : HtmlResponse) : result (list Item.t) :=
  match r with
  | HtmlFails e => Raise e
  | HtmlPage ep nodes => html_loop self ep nodes []
  end.

(** ** Factory and orchestrator *)

Definition _build_source (c : SourceCfg) : option Source :=
  let typ := lower (or_empty (cfg_type c)) in
  if String.eqb typ "rest" then Some (RestSource (BaseSource_init c))
  else if String.eqb typ "rss" then Some (RssSource (BaseSource_init c))
  else if String.eqb typ "html" then Some (HtmlSource (BaseSource_init c))
  else None.

(** What the network answers to the task at each position of [tasks]. *)
Record World := {
  rest_response : nat → RestResponse;
  rss_response : nat → RssResponse;
  html_response : nat → HtmlResponse
}.

(** [s.fetch()] for the task at position [i]. *)
Definition fetch (w : World) (i : nat) (s : Source) : result (list Item.t) :=
  match s with
  | RestSource self => RestSource_fetch self (rest_response w i)
  | RssSource self => RssSource_fetch self (rss_response w i)
  | HtmlSource self => HtmlSource_fetch self (html_response w i)
  end.

Definition to_dict (x : Item.t) : ItemDict :=
  {| get_title := Some (Item.title x);
     get_url := Some (Item.url x);
     get_ts := Some (Item.ts x);
     get_rank := Item.rank x;
     get_source := Some (Item.source x);
     get_source_key := Some (Item.source_key x);
     get_id := Some (Item.id x) |}.

(** The first loop: one task per config that [_build_source] accepts. *)
Definition build_tasks (src_cfgs : list SourceCfg) : list Source :=
  omap _build_source src_cfgs.

(** [asyncio.gather] over [tasks] with [return_exceptions=True]: the
    outcome of each task, in the order of [tasks]. *)
Definition gather (w : World) (tasks : list Source) : list (result (list Item.t)) :=
  imap (fetch w) tasks.

(** A line printed for a failed source: the key and the error. *)
Record LogLine := {
  log_key : string;
  log_err : PyExn
}.

(** The second loop, over [enumerate(results)] from position [i]: [merged]
    and the printed lines.  [src_cfgs[i]] raises IndexError out of range. *)
Fixpoint collect (src_cfgs : list SourceCfg) (i : nat)
    (results : list (result (list Item.t)))
    (merged : list Item.t) (log : list LogLine)
    : result (list Item.t * list LogLine) :=
  match results with
  | [] => Ok (merged, log)
  | Raise r :: results' =>
      match src_cfgs !! i with
      | Some c =>
          let k := default ("unknown_source_" +:+ pretty i) (cfg_key c) in
          collect src_cfgs (S i) results' merged (log ++ [{| log_key := k; log_err := r |}])
      | None => Raise IndexError
      end
  | Ok r :: results' => collect src_cfgs (S i) results' (merged ++ r) log
  end.

(** [fetch_custom_all(config)] with [src_cfgs = config.get("custom_sources") or []]:
    the returned list and what was printed. *)
Definition fetch_custom_all (w : World) (src_cfgs : list SourceCfg)
    : result (list ItemDict * list LogLine) :=
  let tasks := build_tasks src_cfgs in
  let results := gather w tasks in
  match collect src_cfgs 0 results [] [] with
  | Ok (merged, log) => Ok (to_dict <$> merged, log)
  | Raise e => Raise e
  end.

(** The items of the tasks that returned, in task order. *)
Definition successes (results : list (result (list Item.t))) : list Item.t :=
  concat ((λ r, match r with Ok items => items | Raise _ => [] end) <$> results).

(** The errors of the tasks that raised, in task order. *)
Definition failures (results : list (result (list Item.t))) : list PyExn :=
  concat ((λ r, match r with Ok _ => [] | Raise e => [e] end) <$> results).

(** ** Merge and dedup *)

Definition url_of (it : ItemDict) : string := strip (or_empty (get_url it)).
Definition tkey_of (it : ItemDict) : string := _title_key (or_empty (get_title it)).

(** The fuzzy loop over [seen_title.keys()]: only whether some key reaches
    the threshold matters, so the order of the keys does not. *)
Definition fuzzy_dup (enable_fuzzy : bool) (fuzzy_threshold : Q)
    (tkey : string) (keys : list string) : bool :=
  match (if enable_fuzzy then fuzz E else None) with
  | Some token_set_ratio =>
      existsb (fun tk => Qle_bool fuzzy_threshold (token_set_ratio tkey tk)) keys
  | None => false
  end.

(** The three [continue] tests of the loop body. *)
Definition is_dup (enable_fuzzy : bool) (fuzzy_threshold : Q)
    (st : DedupState) (it : ItemDict) : bool :=
  let url := url_of it in
  if truthy_str url && bool_decide (url ∈ seen_url st) then true
  else
    let tkey := tkey_of it in
    if truthy_str tkey && bool_decide (is_Some (seen_title st !! tkey)) then true
    else fuzzy_dup enable_fuzzy fuzzy_threshold tkey (map_to_list (seen_title st)).*1.

(** The tail of the loop body: record the keys and append. *)
Definition keep (st : DedupState) (it : ItemDict) : DedupState :=
  let url := url_of it in
  let tkey := tkey_of it in
  {| seen_url := if truthy_str url then {[url]} ∪ seen_url st else seen_url st;
     seen_title := if truthy_str tkey then <[tkey := 1]> (seen_title st) else seen_title st;
     out := out st ++ [it] |}.

Definition dedup_step (enable_fuzzy : bool) (fuzzy_threshold : Q)
    (st : DedupState) (it : ItemDict) : DedupState :=
  if is_dup enable_fuzzy fuzzy_threshold st it then st else keep st it.

Definition dedup_loop (enable_fuzzy : bool) (fuzzy_threshold : Q)
    (st : DedupState) (items : list ItemDict) : DedupState :=
  fold_left (dedup_step enable_fuzzy fuzzy_threshold) items st.

Definition dedup_items (items : list ItemDict)
    (enable_fuzzy : bool) (fuzzy_threshold : Q) : list ItemDict :=
  out (dedup_loop enable_fuzzy fuzzy_threshold dedup_init items).

(** When the loop takes [x] for the same logical item as a kept [k]: same
    non-empty URL, same non-empty title key, or, with fuzzy matching on, a
    score against the recorded title key of [k] at or above the threshold. *)
Definition duplicates (enable_fuzzy : bool) (fuzzy_threshold : Q)
    (x k : ItemDict) : bool :=
  truthy_str (url_of x) && String.eqb (url_of k) (url_of x)
  || truthy_str (tkey_of x) && String.eqb (tkey_of k) (tkey_of x)
  || truthy_str (tkey_of k) && fuzzy_dup enable_fuzzy fuzzy_threshold (tkey_of x) [tkey_of k].

(** The seen keys are those of the kept items. *)
Definition seen_inv (st : DedupState) : Prop :=
  (∀ u, u ∈ seen_url st ↔ truthy_str u = true ∧ ∃ k, k ∈ out st ∧ url_of k = u) ∧
  (∀ t, is_Some (seen_title st !! t) ↔
        truthy_str t = true ∧ ∃ k, k ∈ out st ∧ tkey_of k = t).

Definition merge_items (base_items custom_items : list ItemDict)
    (enable_fuzzy : bool) (fuzzy_threshold : Q) : list ItemDict :=
  dedup_items (base_items ++ custom_items) enable_fuzzy fuzzy_threshold.

End Sources.

(** ** Reshape for the report *)

(** The operand of [entry["ranks"].append(...)], given [len(entry["ranks"])].
    [str(rank).isdigit()] holds for an int exactly when it is not negative,
    never for a bool (["True"]) or a float (its text has a point, an
    exponent, or is [inf] or [nan]). *)
Definition rank_or_next (rank : PyVal) (len : nat) : result Z :=
  match rank with
  | PInt n => Ok (if 0 <=? n then n else Z.of_nat len + 1)
  | PStr s => if isdigit s then int_of_digits s else Ok (Z.of_nat len + 1)
  | PNone | PBool _ | PFloat _ | PObj _ => Ok (Z.of_nat len + 1)
  end.

(** [c_results] and [c_id_to_name]. *)
Record Reshaped := {
  c_results : gmap string (gmap string Entry);
  c_id_to_name : gmap string string
}.

(** [f"custom:{it.get('source_key','custom')}"] *)
Definition sid_of (it : ItemDict) : string :=
  "custom:" +:+ default "custom" (get_source_key it).

(** [c_results.setdefault(sid, {})], as it leaves [c_results]. *)
Definition setdefault_bucket (results : gmap string (gmap string Entry)) (sid : string)
    : gmap string (gmap string Entry) :=
  match results !! sid with
  | Some _ => results
  | None => <[sid := ∅]> results
  end.

(** One round of the loop of [custom_to_results]. *)
Definition reshape_step (st : Reshaped) (it : ItemDict) : result Reshaped :=
  let sid := sid_of it in
  let sname := if truthy_str (or_empty (get_source it)) then or_empty (get_source it) else sid in
  let names := <[sid := sname]> (c_id_to_name st) in
  let results := setdefault_bucket (c_results st) sid in
  let title := strip (or_empty (get_title it)) in
  if negb (truthy_str title)
  then Ok {| c_results := results; c_id_to_name := names |}
  else
    let url' := or_empty (get_url it) in
    let bucket := default ∅ (results !! sid) in
    let entry := default {| ranks := []; url := url'; mobileUrl := "" |} (bucket !! title) in
    let entry_url := if truthy_str (url entry) then url entry else url' in
    r ← rank_or_next (get_rank it) (length (ranks entry));
    let entry' := {| ranks := ranks entry ++ [r]; url := entry_url; mobileUrl := mobileUrl entry |} in
    Ok {| c_results := <[sid := <[title := entry']> bucket]> results; c_id_to_name := names |}.

Fixpoint reshape_loop (st : Reshaped) (custom_items : list ItemDict) : result Reshaped :=
  match custom_items with
  | [] => Ok st
  | it :: rest => st' ← reshape_step st it; reshape_loop st' rest
  end.

Definition custom_to_results (custom_items : list ItemDict) : result Reshaped :=
  reshape_loop {| c_results := ∅; c_id_to_name := ∅ |} custom_items.

(** [c_results[sid][title]], when both keys are there. *)
Definition entry_at (r : Reshaped) (sid title : string) : option Entry :=
  bucket ← c_results r !! sid; bucket !! title.



(** The one-character string U+00B2, SUPERSCRIPT TWO. *)
Definition superscript_two : string := String (ascii_of_N 178) EmptyString.

(** An item dict of a source with a title, a URL and a rank. *)
Definition ranked (source_key title url : string) (rank : PyVal) : ItemDict :=
  {| get_title := Some title; get_url := Some url; get_ts := None; get_rank := rank;
     get_source := None; get_source_key := Some source_key; get_id := None |}.

(** ** Rate limiter *)

(** [_rate_limit] is a coroutine: between two [await]s it runs without
    interruption, and several calls on one source interleave at the
    [await]s.  A call is at one of these points. *)
Inductive Pc :=
  | Start                  (* called, not yet run *)
  | WaitLock               (* at [async with self._lock], lock not yet taken *)
  | Locked                 (* lock taken, about to read [now] *)
  | Sleeping (until : Q)   (* in [asyncio.sleep(wait)]; it ends no earlier than [until] *)
  | Stamping               (* about to run [self._last = time.monotonic()] *)
  | Passed                 (* returned at [if self.min_interval <= 0] *)
  | Proceeded (at_ : Q).   (* returned after the lock; [at_] is the stored [_last] *)

(** Run-time state of one source instance: its lock (the holder, if any),
    [_last], the monotonic clock, and the calls in flight. *)
Record Limiter := {
  _lock : option nat;
  _last : Q;
  monotonic : Q;
  callers : list Pc
}.

Definition Limiter_init (n : nat) (clock : Q) : Limiter :=
  {| _lock := None; _last := 0%Q; monotonic := clock; callers := replicate n Start |}.

Definition goto (L : Limiter) (i : nat) (pc : Pc) : Limiter :=
  {| _lock := _lock L; _last := _last L; monotonic := monotonic L;
     callers := <[i := pc]> (callers L) |}.

(** Call [i] of [self._rate_limit()] runs from its point to the next one;
    [None] when it cannot run now (blocked on the lock, asleep, or done). *)
Definition _rate_limit (self : BaseSource) (L : Limiter) (i : nat) : option Limiter :=
  match callers L !! i with
  | Some Start =>
      if Qle_bool (min_interval self) 0 then Some (goto L i Passed)
      else Some (goto L i WaitLock)
  | Some WaitLock =>
      match _lock L with
      | None =>
          Some {| _lock := Some i; _last := _last L; monotonic := monotonic L;
                  callers := <[i := Locked]> (callers L) |}
      | Some _ => None
      end
  | Some Locked =>
      let now := monotonic L in
      let wait := (min_interval self - (now - _last L))%Q in
      if Qle_bool wait 0 then Some (goto L i Stamping)
      else Some (goto L i (Sleeping (now + wait)%Q))
  | Some (Sleeping until) =>
      if Qle_bool until (monotonic L) then Some (goto L i Stamping) else None
  | Some Stamping =>
      Some {| _lock := None; _last := monotonic L; monotonic := monotonic L;
              callers := <[i := Proceeded (monotonic L)]> (callers L) |}
  | Some Passed | Some (Proceeded _) | None => None
  end.

(** What can happen next: time passes, or one call runs. *)
Inductive Event :=
  | Tick (d : Q)
  | Run (i : nat).

Definition step (self : BaseSource) (L : Limiter) (ev : Event) : option Limiter :=
  match ev with
  | Tick d =>
      if Qle_bool 0 d
      then Some {| _lock := _lock L; _last := _last L;
                   monotonic := (monotonic L + d)%Q; callers := callers L |}
      else None
  | Run i => _rate_limit self L i
  end.

Fixpoint steps (self : BaseSource) (L : Limiter) (evs : list Event) : option Limiter :=
  match evs with
  | [] => Some L
  | ev :: evs' =>
      match step self L ev with
      | Some L' => steps self L' evs'
      | None => None
      end
  end.

(** A call at one of these points holds the lock. *)
Definition holds_lock (pc : Pc) : bool :=
  match pc with
  | Locked | Sleeping _ | Stamping => true
  | Start | WaitLock | Passed | Proceeded _ => false
  end.


(** ** An environment for concrete runs *)

(** Days from 1970-01-01 to a civil date of the proleptic Gregorian calendar. *)
Definition days_from_civil (y m d : Z) : Z :=
  let y' := if m <=? 2 then y - 1 else y in
  let era := y' `div` 400 in
  let yoe := y' - era * 400 in
  let doy := (153 * (if 2 <? m then m - 3 else m + 9) + 2) `div` 5 + d - 1 in
  let doe := yoe * 365 + yoe `div` 4 - yoe `div` 100 + doy in
  era * 146097 + doe - 719468.

(** [time.mktime] when the local zone is UTC. *)
Definition mktime_utc (t : struct_time) : result Z :=
  Ok (days_from_civil (tm_year t) (tm_mon t) (tm_mday t) * 86400
      + tm_hour t * 3600 + tm_min t * 60 + tm_sec t).

(** A machine with neither OpenCC nor RapidFuzz installed and UTC as its
    zone, fed ASCII text, which NFKC leaves as it is.  The date parser
    accepts nothing and the digest and [urljoin] are stand-ins: the runs
    below parse no date strings, compare no ids and join no URLs. *)
Definition offline_env : Env :=
  {| nfkc := fun s => s;
     _opencc := None;
     fuzz := None;
     dtparse := fun _ => Raise ValueError;
     md5_hex := fun s => s;
     float_floordiv_1000 := fun q => Qfloor (q / 1000);
     mktime := mktime_utc;
     urljoin := fun base u => base +:+ u |}.

(** A config with a type and a key. *)
Definition typed_cfg (type key : string) : SourceCfg :=
  {| cfg_type := Some type; cfg_key := Some key; cfg_name := None; cfg_rpm := None |}.

(** A network where every REST request is answered with status 500, every
    feed has the entries [feed] and every page has no matching node. *)
Definition rest_down (feed : list FeedEntry) : World :=
  {| rest_response := λ _, RestFails HTTPStatusError;
     rss_response := λ _, RssFeed feed;
     html_response := λ _, HtmlPage "http://h/" [] |}.

(** An item dict with just a title and a URL. *)
Definition titled (title url : string) : ItemDict :=
  {| get_title := Some title; get_url := Some url; get_ts := None; get_rank := PNone;
     get_source := None; get_source_key := None; get_id := None |}.

(** ** What the adapters keep *)

(** The attributes of a source, whatever its class. *)
Definition base_of (s : Source) : BaseSource :=
  match s with
  | RestSource self | RssSource self | HtmlSource self => self
  end.

(** A REST element passes [if not title or not url: continue]. *)
Definition rest_kept (it : RestRow) : bool :=
  truthy (row_title it) && truthy (row_url it).

(** [isinstance(v, str)] *)
Definition is_str (v : PyVal) : bool :=
  match v with
  | PStr _ => true
  | _ => false
  end.

(** A float that [int(...)] refuses. *)
Definition is_nan_or_inf (v : PyVal) : bool :=
  match v with
  | PFloat FNan | PFloat (FInf _) => true
  | _ => false
  end.

(** The URL of an HTML node after [urljoin], and the test on it. *)
Definition html_url (E : Env) (ep : string) (a : HtmlNode) : string :=
  if truthy_str (n_url a)
     && negb (String.prefix "http://" (n_url a) || String.prefix "https://" (n_url a))
  then urljoin E ep (n_url a) else n_url a.

Definition html_kept (E : Env) (ep : string) (a : HtmlNode) : bool :=
  truthy_str (n_title a) && truthy_str (html_url E ep a).

(** What every item of a source carries: text without blanks around it, the
    identity of the source, and the digest of the three as its id. *)
Definition item_of (E : Env) (self : BaseSource) (x : Item.t) : Prop :=
  strip (Item.title x) = Item.title x ∧
  strip (Item.url x) = Item.url x ∧
  Item.source x = name self ∧
  Item.source_key x = key self ∧
  Item.id x = make_id E (key self) (Item.title x) (Item.url x).

(** A REST element from which [_mk_item] can make an item: title and URL
    are strs and the timestamp is not a float that [int(...)] refuses. *)
Definition row_ok (it : RestRow) : bool :=
  is_str (row_title it) && is_str (row_url it) && negb (is_nan_or_inf (row_ts it)).


(** The text of a value that is a str. *)
Definition str_of (v : PyVal) : string :=
  match v with
  | PStr s => s
  | _ => ""
  end.

(** How an item of the REST adapter relates to the element it was made of. *)
Definition rest_item (E : Env) (it : RestRow) (x : Item.t) : Prop :=
  Item.title x = normalize_text E (str_of (row_title it)) true ∧
  Item.url x = strip (str_of (row_url it)) ∧
  parse_ts E (row_now it) (row_ts it) = Ok (Item.ts x) ∧
  Item.rank x = row_rank it.

(** ** What the reshape keeps of its input *)

(** The title under which [custom_to_results] files an item. *)
Definition title_of (it : ItemDict) : string := strip (or_empty (get_title it)).

(** The display name an item gives its source id: [it.get('source') or sid]. *)
Definition sname_of (it : ItemDict) : string :=
  if truthy_str (or_empty (get_source it)) then or_empty (get_source it) else sid_of it.


(** A rank that passes [str(rank).isdigit()] and on which [int(rank)] raises. *)
Definition bad_rank (rank : PyVal) : bool :=
  match rank with
  | PStr s => isdigit s && negb (all_chars is_decimal_char s)
  | _ => false
  end.





(** ** What the orchestrator prints and returns *)

(** The line for the config at position [i] when its own fetch raised [e]. *)
Definition log_line (i : nat) (c : SourceCfg) (e : PyExn) : LogLine :=
  {| log_key := default ("unknown_source_" +:+ pretty i) (cfg_key c); log_err := e |}.

(** The lines of the configs whose fetch raised, each under its own key, when
    the task of a config has the position of the config. *)
Definition own_log (E : Env) (w : World) (src_cfgs : list SourceCfg) : list LogLine :=
  concat (imap (λ i c, match _build_source c with
                       | Some s =>
                           match fetch E w i s with
                           | Raise e => [log_line i c e]
                           | Ok _ => []
                           end
                       | None => []
                       end) src_cfgs).

(** An item dict as a source with config [c] hands it on: the key and the
    display name of the source, and a title and a URL that the dedup and the
    reshape read as they are, since no blanks surround them. *)
Definition dict_of (E : Env) (c : SourceCfg) (d : ItemDict) : Prop :=
  let self := BaseSource_init c in
  get_source_key d = Some (key self) ∧
  get_source d = Some (name self) ∧
  sid_of d = "custom:" +:+ key self ∧
  (∃ t, get_title d = Some t ∧ title_of d = t) ∧
  (∃ u, get_url d = Some u ∧ url_of d = u) ∧
  get_id d = Some (make_id E (key self) (or_empty (get_title d)) (or_empty (get_url d))).

(** A feed with one entry, published at no stated time, with blanks around
    its title and link. *)
Definition one_entry_feed : list FeedEntry :=
  [{| e_title := Some " T1 "; e_link := Some "http://f/1 ";
      e_published_parsed := None; e_now := 7 |}].

(** ** The lock of the rate limiter *)

(** A call that has returned. *)
Definition returned (pc : Pc) : bool :=
  match pc with
  | Passed | Proceeded _ => true
  | Start | WaitLock | Locked | Sleeping _ | Stamping => false
  end.

(** The lock and the calls agree: a call is between taking the lock and
    releasing it exactly when the lock names it, and the lock names a call
    that was made. *)
Definition lock_inv (L : Limiter) : Prop :=
  (∀ i pc, callers L !! i = Some pc → (holds_lock pc = true ↔ _lock L = Some i)) ∧
  (∀ i, _lock L = Some i → is_Some (callers L !! i)).

(** From [L], call [i] can be run until it returns, with the lock free
    afterwards and the other calls where they were. *)
Definition can_return (self : BaseSource) (L : Limiter) (i : nat) : Prop :=
  ∃ evs L' pc',
    steps self L evs = Some L' ∧ _lock L' = None ∧
    callers L' = <[i := pc']> (callers L) ∧ returned pc' = true.


(** ** Source files and the list of all sources *)

(** A source object as the loader reads it, in a YAML file or in
    [CONFIG['CUSTOM_SOURCES']]: the config the adapters get, and the two
    keys only the loader tests, [enabled] and [endpoint] (None when absent). *)
Record SourceObj := {
  obj_cfg : SourceCfg;
  obj_enabled : PyVal;
  obj_endpoint : PyVal
}.

(** An element of a list of sources: a dict, or anything else. *)
Inductive Raw :=
  | RawDict (obj : SourceObj)
  | RawOther.

(** A dict at the top of a file: the list under [custom_sources] when the
    key is there and holds a list, and the dict read as one source object. *)
Record FileDict := {
  fd_custom_sources : option (list Raw);
  fd_obj : SourceObj
}.

(** What [open] and [yaml.safe_load] make of a file: an exception, a
    mapping, a sequence, or anything else (a scalar, or nothing at all). *)
Inductive YamlDoc :=
  | YamlRaises (e : PyExn)
  | YamlMapping (data : FileDict)
  | YamlSequence (data : list Raw)
  | YamlScalar.

(** The process environment and the disk. *)
Record Disk := {
  (** [os.getenv(name)] *)
  getenv : string → option string;
  (** [sorted(f for p in patterns for f in glob.glob(p))] for the patterns
      [*.yml] and [*.yaml] in a directory *)
  glob_sorted : string → list string;
  (** [yaml.safe_load] on the file at a path *)
  safe_load : string → YamlDoc;
  (** [os.path.basename] *)
  basename : string → string;
  (** [pathlib.Path(filename).stem] *)
  path_stem : string → string
}.

(** The two keys of [CONFIG] the loader reads. *)
Record Config := {
  CUSTOM_DIR : option string;
  CUSTOM_SOURCES : option (list Raw)
}.

Definition CUSTOM_DIR_ENV : string := "TREND_CUSTOM_DIR".
Definition DEFAULT_CUSTOM_DIR : string := "config/custom.d".

(** The dict [{}]. *)
Definition empty_obj : SourceObj :=
  {| obj_cfg := {| cfg_type := None; cfg_key := None; cfg_name := None; cfg_rpm := None |};
     obj_enabled := PNone;
     obj_endpoint := PNone |}.

Definition empty_dict : FileDict :=
  {| fd_custom_sources := None; fd_obj := empty_obj |}.

(** [_load_yaml_file(path)]: never raises; the line it prints on an
    exception is left out. *)
Definition _load_yaml_file (D : Disk) (path : string) : FileDict :=
  match safe_load D path with
  | YamlRaises _ => empty_dict
  | YamlMapping data => data
  | YamlSequence [] => empty_dict
  | YamlSequence data => {| fd_custom_sources := Some data; fd_obj := empty_obj |}
  | YamlScalar => empty_dict
  end.

(** [v is False] *)
Definition is_False (v : PyVal) : bool :=
  match v with
  | PBool false => true
  | _ => false
  end.

(** [typ in {"rest", "rss", "html"}] *)
Definition known_type (typ : string) : bool :=
  String.eqb typ "rest" || String.eqb typ "rss" || String.eqb typ "html".

(** [_normalize_single_source(obj, filename)]: None, or the dict with its
    key and name filled in. *)
Definition _normalize_single_source (D : Disk) (obj : Raw) (filename : string)
    : option SourceObj :=
  match obj with
  | RawOther => None
  | RawDict obj =>
      let c := obj_cfg obj in
      if is_False (obj_enabled obj) then None
      else
        let typ := lower (or_empty (cfg_type c)) in
        if negb (known_type typ) then None
        else if negb (truthy (obj_endpoint obj)) then None
        else
          let key := or_empty (cfg_key c) in
          let key := if truthy_str key then key
                     else typ +:+ ":" +:+ path_stem D filename in
          Some {| obj_cfg := {| cfg_type := cfg_type c;
                                cfg_key := Some key;
                                cfg_name := Some (default key (cfg_name c));
                                cfg_rpm := cfg_rpm c |};
                  obj_enabled := obj_enabled obj;
                  obj_endpoint := obj_endpoint obj |}
  end.

(** [s["key"]] *)
Definition src_key (s : SourceObj) : result string :=
  match cfg_key (obj_cfg s) with
  | Some k => Ok k
  | None => Raise KeyError
  end.

(** [{s["key"]: i for i, s in enumerate(sources)}], from position [i] on. *)
Fixpoint exist_from (i : nat) (sources : list SourceObj) (exist : gmap string nat)
    : result (gmap string nat) :=
  match sources with
  | [] => Ok exist
  | s :: sources' => k ← src_key s; exist_from (S i) sources' (<[k := i]> exist)
  end.

(** The end of the inner loop body: a source with a key that is there
    already takes the place of that one, any other is appended. *)
Definition upsert (sources : list SourceObj) (src : SourceObj) : result (list SourceObj) :=
  exist ← exist_from 0 sources ∅;
  k ← src_key src;
  match exist !! k with
  | Some i =>
      if decide (i < length sources)%nat then Ok (<[i := src]> sources)
      else Raise IndexError
  | None => Ok (sources ++ [src])
  end.

(** The items of a file: the list under [custom_sources], or the dict itself. *)
Definition items_of (data : FileDict) : list Raw :=
  match fd_custom_sources data with
  | Some items => items
  | None => [RawDict (fd_obj data)]
  end.

(** The loop over the items of the file [fp]; [idx] counts them from 1. *)
Fixpoint load_items (D : Disk) (fp : string) (idx : nat) (items : list Raw)
    (sources : list SourceObj) (errors : list string)
    : result (list SourceObj * list string) :=
  match items with
  | [] => Ok (sources, errors)
  | raw :: items' =>
      let idx := S idx in
      match _normalize_single_source D raw (basename D fp) with
      | None =>
          load_items D fp idx items' sources
            (errors ++ ["skip_invalid:" +:+ fp +:+ "#" +:+ pretty idx])
      | Some src =>
          match upsert sources src with
          | Ok sources' => load_items D fp idx items' sources' errors
          | Raise e => Raise e
          end
      end
  end.

(** The loop over the files. *)
Fixpoint load_files (D : Disk) (files : list string)
    (sources : list SourceObj) (errors : list string)
    : result (list SourceObj * list string) :=
  match files with
  | [] => Ok (sources, errors)
  | fp :: files' =>
      match load_items D fp 0 (items_of (_load_yaml_file D fp)) sources errors with
      | Ok (sources', errors') => load_files D files' sources' errors'
      | Raise e => Raise e
      end
  end.

(** [os.getenv(CUSTOM_DIR_ENV, CONFIG.get("CUSTOM_DIR", DEFAULT_CUSTOM_DIR))] *)
Definition custom_dir (D : Disk) (CONFIG : Config) : string :=
  default (default DEFAULT_CUSTOM_DIR (CUSTOM_DIR CONFIG)) (getenv D CUSTOM_DIR_ENV).

Definition load_custom_sources_from_dir (D : Disk) (CONFIG : Config)
    : result (list SourceObj * list string) :=
  load_files D (glob_sorted D (custom_dir D CONFIG)) [] [].

(** [d[k] = v] on a dict, which keeps its keys in the order they came in. *)
Fixpoint odict_set {V : Type} (d : list (string * V)) (k : string) (v : V)
    : list (string * V) :=
  match d with
  | [] => [(k, v)]
  | (k', v') :: d' =>
      if String.eqb k' k then (k', v) :: d' else (k', v') :: odict_set d' k v
  end.

(** [{s["key"]: s for s in cfg_sources if isinstance(s, dict) and s.get("key")}] *)
Fixpoint merged_of (cfg_sources : list Raw) (merged : list (string * SourceObj))
    : list (string * SourceObj) :=
  match cfg_sources with
  | [] => merged
  | RawDict s :: rest =>
      let k := or_empty (cfg_key (obj_cfg s)) in
      if truthy_str k then merged_of rest (odict_set merged k s) else merged_of rest merged
  | RawOther :: rest => merged_of rest merged
  end.

(** [for s in dir_sources: merged[s["key"]] = s] *)
Fixpoint merge_dir (dir_sources : list SourceObj) (merged : list (string * SourceObj))
    : result (list (string * SourceObj)) :=
  match dir_sources with
  | [] => Ok merged
  | s :: rest => k ← src_key s; merge_dir rest (odict_set merged k s)
  end.

Definition get_all_custom_sources (D : Disk) (CONFIG : Config) : result (list SourceObj) :=
  match load_custom_sources_from_dir D CONFIG with
  | Ok (dir_sources, _) =>
      let cfg_sources := default [] (CUSTOM_SOURCES CONFIG) in
      merged ← merge_dir dir_sources (merged_of cfg_sources []);
      Ok (merged.*2)
  | Raise e => Raise e
  end.


(** The key of a source that has one. *)
Definition key_of (s : SourceObj) : string := or_empty (cfg_key (obj_cfg s)).

(** A source as [_normalize_single_source] leaves it: not disabled, of a
    known type, with an endpoint, a key that is not empty, and a name. *)
Definition normal (s : SourceObj) : Prop :=
  is_False (obj_enabled s) = false ∧
  known_type (lower (or_empty (cfg_type (obj_cfg s)))) = true ∧
  truthy (obj_endpoint s) = true ∧
  (∃ k, cfg_key (obj_cfg s) = Some k ∧ k ≠ "") ∧
  is_Some (cfg_name (obj_cfg s)).





(** A disk of one directory with the two files [a.yml] and [b.yaml]. *)
Definition two_files (a b : YamlDoc) : Disk :=
  {| getenv := λ _, None;
     glob_sorted := λ _, ["config/custom.d/a.yml"; "config/custom.d/b.yaml"];
     safe_load := λ path, if String.eqb path "config/custom.d/a.yml" then a else b;
     basename := λ path, if String.eqb path "config/custom.d/a.yml" then "a.yml" else "b.yaml";
     path_stem := λ filename, if String.eqb filename "a.yml" then "a" else "b" |}.

(** A source object of a type, with an endpoint and, maybe, a key. *)
Definition source_obj (type : string) (key : option string) : SourceObj :=
  {| obj_cfg := {| cfg_type := Some type; cfg_key := key; cfg_name := None; cfg_rpm := None |};
     obj_enabled := PNone;
     obj_endpoint := PStr "http://e/" |}.

Definition no_config : Config := {| CUSTOM_DIR := None; CUSTOM_SOURCES := None |}.





(** * Properties *)

(** ** Strings *)

Lemma truthy_str_true (s : string) : truthy_str s = true ↔ s ≠ "".
Proof. destruct s; simpl; split; congruence. Qed.

(** ** Dedup *)

Section DedupProps.

Variable E : Env.
Variable enable_fuzzy : bool.
Variable fuzzy_threshold : Q.

Abbreviation step := (dedup_step E enable_fuzzy fuzzy_threshold).
Abbreviation loop := (dedup_loop E enable_fuzzy fuzzy_threshold).
Abbreviation dup := (is_dup E enable_fuzzy fuzzy_threshold).

Lemma dedup_loop_app (st : DedupState) (l1 l2 : list ItemDict) :
  loop st (l1 ++ l2) = loop (loop st l1) l2.
Proof. unfold dedup_loop. apply fold_left_app. Qed.

Lemma dedup_loop_snoc (st : DedupState) (l : list ItemDict) (x : ItemDict) :
  loop st (l ++ [x]) = step (loop st l) x.
Proof. by rewrite dedup_loop_app. Qed.

Lemma out_keep (st : DedupState) (x : ItemDict) : out (keep E st x) = out st ++ [x].
Proof. done. Qed.

(** The state the loop reaches is rebuilt by running it on its own output:
    the seen keys are recorded only when an item is kept. *)
Lemma dedup_replay (items : list ItemDict) :
  loop dedup_init (out (loop dedup_init items)) = loop dedup_init items.
Proof.
  induction items as [|x l IH] using rev_ind; [done|].
  rewrite dedup_loop_snoc.
  destruct (dup (loop dedup_init l) x) eqn:Hd.
  - unfold dedup_step. by rewrite Hd.
  - assert (step (loop dedup_init l) x = keep E (loop dedup_init l) x) as Hs
      by (unfold dedup_step; by rewrite Hd).
    by rewrite Hs, out_keep, dedup_loop_snoc, IH.
Qed.

(** Nothing is a duplicate before anything was seen. *)
Lemma is_dup_init (x : ItemDict) : dup dedup_init x = false.
Proof.
  unfold is_dup, fuzzy_dup. simpl.
  rewrite map_to_list_empty. simpl.
  rewrite !andb_false_r. by destruct (if enable_fuzzy then fuzz E else None).
Qed.

Lemma dedup_items_cons (x : ItemDict) (l : list ItemDict) :
  dedup_items E (x :: l) enable_fuzzy fuzzy_threshold
  = out (loop (keep E dedup_init x) l).
Proof.
  unfold dedup_items, dedup_loop. simpl. unfold dedup_step at 2.
  by rewrite is_dup_init.
Qed.

(** The output grows by a sublist of what is scanned. *)
Lemma out_dedup_loop (items : list ItemDict) (st : DedupState) :
  ∃ k, out (loop st items) = out st ++ k ∧ sublist k items.
Proof.
  revert st. induction items as [|x l IH]; intros st.
  - exists []. by rewrite app_nil_r.
  - unfold dedup_loop. simpl. fold (loop (step st x) l).
    destruct (IH (step st x)) as (k & -> & Hk). unfold dedup_step.
    destruct (dup st x).
    + exists k. split; [done|]. by apply sublist_cons.
    + exists (x :: k). rewrite out_keep, <- app_assoc. split; [done|].
      by apply sublist_skip.
Qed.

Lemma seen_inv_init : seen_inv E dedup_init.
Proof.
  split; intros x; simpl.
  - rewrite elem_of_empty. split; [done|]. intros (_ & k & Hk & _). by apply elem_of_nil in Hk.
  - rewrite lookup_empty. split; [by intros []|]. intros (_ & k & Hk & _). by apply elem_of_nil in Hk.
Qed.

Lemma seen_inv_keep (st : DedupState) (x : ItemDict) :
  seen_inv E st → seen_inv E (keep E st x).
Proof.
  intros [Hu Ht]. split; intros y; simpl.
  - destruct (truthy_str (url_of x)) eqn:Hx.
    + rewrite elem_of_union, elem_of_singleton, Hu. split.
      * intros [->|(? & k & Hk & <-)]; (split; [done|]).
        -- exists x. split; [|done]. apply elem_of_app. right. by apply list_elem_of_singleton.
        -- exists k. split; [|done]. apply elem_of_app. by left.
      * intros (Hy & k & Hk & <-). apply elem_of_app in Hk as [Hk|Hk].
        -- right. eauto.
        -- left. by apply list_elem_of_singleton in Hk as ->.
    + rewrite Hu. split.
      * intros (? & k & Hk & <-). split; [done|]. exists k. split; [|done].
        apply elem_of_app. by left.
      * intros (Hy & k & Hk & <-). split; [done|]. apply elem_of_app in Hk as [Hk|Hk]; [eauto|].
        apply list_elem_of_singleton in Hk as ->. congruence.
  - destruct (truthy_str (tkey_of E x)) eqn:Hx.
    + rewrite lookup_insert_is_Some, Ht. split.
      * intros [<-|[_ (? & k & Hk & <-)]]; (split; [done|]).
        -- exists x. split; [|done]. apply elem_of_app. right. by apply list_elem_of_singleton.
        -- exists k. split; [|done]. apply elem_of_app. by left.
      * intros (Hy & k & Hk & <-). apply elem_of_app in Hk as [Hk|Hk].
        -- destruct (decide (tkey_of E x = tkey_of E k)); [by left|]. right. eauto.
        -- left. by apply list_elem_of_singleton in Hk as ->.
    + rewrite Ht. split.
      * intros (? & k & Hk & <-). split; [done|]. exists k. split; [|done].
        apply elem_of_app. by left.
      * intros (Hy & k & Hk & <-). split; [done|]. apply elem_of_app in Hk as [Hk|Hk]; [eauto|].
        apply list_elem_of_singleton in Hk as ->. congruence.
Qed.

Lemma seen_inv_loop (items : list ItemDict) (st : DedupState) :
  seen_inv E st → seen_inv E (loop st items).
Proof.
  revert st. induction items as [|x l IH]; intros st Hst; [done|].
  unfold dedup_loop. simpl. apply IH. unfold dedup_step.
  destruct (dup st x); [done|]. by apply seen_inv_keep.
Qed.

Lemma fuzzy_dup_exists (t : string) (keys : list string) :
  fuzzy_dup E enable_fuzzy fuzzy_threshold t keys = true ↔
  ∃ tk, tk ∈ keys ∧ fuzzy_dup E enable_fuzzy fuzzy_threshold t [tk] = true.
Proof.
  unfold fuzzy_dup. destruct (if enable_fuzzy then fuzz E else None) as [f|].
  - rewrite existsb_exists. split.
    + intros (tk & Hin & Htk). exists tk. rewrite list_elem_of_In. simpl.
      by rewrite Htk.
    + intros (tk & Hin & Htk). exists tk. rewrite <- list_elem_of_In.
      simpl in Htk. by rewrite orb_false_r in Htk.
  - split; [done|]. by intros (? & _ & ?).
Qed.

Lemma elem_of_keys (m : gmap string Z) (tk : string) :
  tk ∈ (map_to_list m).*1 ↔ is_Some (m !! tk).
Proof.
  rewrite list_elem_of_fmap. split.
  - intros ([k v] & -> & Hkv). apply elem_of_map_to_list in Hkv. simpl. eauto.
  - intros [v Hv]. exists (tk, v). split; [done|]. by apply elem_of_map_to_list.
Qed.

Lemma is_dup_orb (st : DedupState) (x : ItemDict) :
  dup st x =
  truthy_str (url_of x) && bool_decide (url_of x ∈ seen_url st)
  || truthy_str (tkey_of E x) && bool_decide (is_Some (seen_title st !! tkey_of E x))
  || fuzzy_dup E enable_fuzzy fuzzy_threshold (tkey_of E x) (map_to_list (seen_title st)).*1.
Proof.
  unfold is_dup.
  destruct (truthy_str (url_of x) && bool_decide (url_of x ∈ seen_url st)); [done|].
  by destruct (truthy_str (tkey_of E x)
               && bool_decide (is_Some (seen_title st !! tkey_of E x))).
Qed.

(** An item is dropped exactly when a kept item duplicates it. *)
Lemma is_dup_spec (st : DedupState) (x : ItemDict) :
  seen_inv E st →
  dup st x = existsb (duplicates E enable_fuzzy fuzzy_threshold x) (out st).
Proof.
  intros [Hu Ht]. apply eq_true_iff_eq.
  rewrite is_dup_orb, existsb_exists, !orb_true_iff, !andb_true_iff,
    !bool_decide_eq_true, fuzzy_dup_exists, Hu, Ht.
  split.
  - intros [[(Hx & _ & k & Hk & Hkx)|(Hx & _ & k & Hk & Hkx)]|(tk & Htk & Hf)].
    + exists k. rewrite <- list_elem_of_In. split; [done|]. unfold duplicates.
      rewrite Hx, Hkx, String.eqb_refl. done.
    + exists k. rewrite <- list_elem_of_In. split; [done|]. unfold duplicates.
      rewrite Hx, Hkx, String.eqb_refl. simpl. by rewrite orb_true_r.
    + apply elem_of_keys, Ht in Htk as (Htk & k & Hk & <-).
      exists k. rewrite <- list_elem_of_In. split; [done|]. unfold duplicates.
      rewrite Htk, Hf. simpl. by rewrite orb_true_r.
  - intros (k & Hk & Hd). apply list_elem_of_In in Hk. unfold duplicates in Hd.
    rewrite !orb_true_iff, !andb_true_iff, !String.eqb_eq in Hd.
    destruct Hd as [[[Hx Hkx]|[Hx Hkx]]|[Hkt Hf]].
    + left. left. eauto 6.
    + left. right. eauto 6.
    + right. exists (tkey_of E k). split; [|done]. apply elem_of_keys, Ht. eauto.
Qed.

End DedupProps.

(** C3.  [dedup_items] is idempotent: for every list of item records and
    every setting of [enable_fuzzy] and [fuzzy_threshold], running it on its
    own output gives that output again. *)
Theorem dedup_items_idempotent (E : Env) (L : list ItemDict)
    (enable_fuzzy : bool) (fuzzy_threshold : Q) :
  dedup_items E (dedup_items E L enable_fuzzy fuzzy_threshold) enable_fuzzy fuzzy_threshold
  = dedup_items E L enable_fuzzy fuzzy_threshold.
Proof. unfold dedup_items. by rewrite dedup_replay. Qed.

(** C5.  [dedup_items L] is a subsequence of [L]: it is a sublist of [L]
    (same items, same relative order, nothing altered), so never longer;
    scanning one more item appends it unless a kept item already duplicates
    it (the first occurrence wins); and an item dropped as a duplicate
    leaves no trace: the result is the one for the list without it. *)
Theorem dedup_items_subsequence (E : Env) (L : list ItemDict)
    (enable_fuzzy : bool) (fuzzy_threshold : Q) :
  let dedup := fun l => dedup_items E l enable_fuzzy fuzzy_threshold in
  let dup_of := duplicates E enable_fuzzy fuzzy_threshold in
  sublist (dedup L) L ∧
  (length (dedup L) ≤ length L)%nat ∧
  (∀ pre x,
     dedup (pre ++ [x]) = dedup pre ++ (if existsb (dup_of x) (dedup pre) then [] else [x])) ∧
  (∀ pre x post,
     existsb (dup_of x) (dedup pre) = true → dedup (pre ++ x :: post) = dedup (pre ++ post)).
Proof.
  intros dedup dup_of. subst dedup dup_of. unfold dedup_items.
  assert (∀ pre x, existsb (duplicates E enable_fuzzy fuzzy_threshold x)
                     (out (dedup_loop E enable_fuzzy fuzzy_threshold dedup_init pre))
                   = is_dup E enable_fuzzy fuzzy_threshold
                       (dedup_loop E enable_fuzzy fuzzy_threshold dedup_init pre) x) as Hdup.
  { intros pre x. symmetry. apply is_dup_spec, seen_inv_loop, seen_inv_init. }
  destruct (out_dedup_loop E enable_fuzzy fuzzy_threshold L dedup_init) as (k & Hk & Hsub).
  simpl in Hk. repeat split.
  - by rewrite Hk.
  - rewrite Hk. by apply sublist_length.
  - intros pre x. rewrite dedup_loop_snoc, Hdup. unfold dedup_step.
    destruct (is_dup _ _ _ _ x); [by rewrite app_nil_r|done].
  - intros pre x post Hx. rewrite Hdup in Hx.
    rewrite !dedup_loop_app. unfold dedup_loop at 1. simpl. unfold dedup_step at 2.
    by rewrite Hx.
Qed.

(** C4, as amended.  For two items: when both URLs are the same after
    trimming and that URL is not empty, only the first item is returned,
    whatever the titles; and when the title keys (titles after
    normalisation) are the same and not empty, only the first item is
    returned, whatever the URLs. *)
Theorem dedup_items_two_items (E : Env) (a b : ItemDict)
    (enable_fuzzy : bool) (fuzzy_threshold : Q) :
  (url_of a = url_of b ∧ url_of a ≠ "") ∨ (tkey_of E a = tkey_of E b ∧ tkey_of E a ≠ "") →
  dedup_items E [a; b] enable_fuzzy fuzzy_threshold = [a].
Proof.
  intros H. rewrite dedup_items_cons. unfold dedup_loop. simpl.
  unfold dedup_step. rewrite is_dup_orb. simpl.
  destruct H as [[Hab Ha]|[Hab Ha]]; apply truthy_str_true in Ha.
  - rewrite Ha, <- Hab, Ha. simpl.
    rewrite bool_decide_eq_true_2; [done|]. set_solver.
  - rewrite Ha, <- Hab, Ha. simpl.
    rewrite (bool_decide_eq_true_2 (is_Some _)); [by rewrite orb_true_r|].
    rewrite lookup_insert_eq. eauto.
Qed.

Lemma dedup_items_two_items_witness :
  dedup_items offline_env [titled "A" "u1"; titled "B" " u1 "] true 90%Q = [titled "A" "u1"].
Proof. apply dedup_items_two_items. left. by vm_compute. Defined.

(** C4 as stated fails on both halves.  Two items with the same URL [" "],
    which is not empty but trims to nothing, and titles "A" and "B" are both
    kept; so are two items with distinct URLs whose titles are both empty,
    hence equal after normalisation. *)
Lemma dedup_items_two_items_counterexample :
  ¬ (∀ (E : Env) (a b : ItemDict) (enable_fuzzy : bool) (fuzzy_threshold : Q),
       or_empty (get_url a) = or_empty (get_url b) → or_empty (get_url a) ≠ "" →
       dedup_items E [a; b] enable_fuzzy fuzzy_threshold = [a])
  ∧
  ¬ (∀ (E : Env) (a b : ItemDict) (enable_fuzzy : bool) (fuzzy_threshold : Q),
       or_empty (get_url a) = "" ∨ or_empty (get_url b) = ""
       ∨ or_empty (get_url a) ≠ or_empty (get_url b) →
       tkey_of E a = tkey_of E b →
       dedup_items E [a; b] enable_fuzzy fuzzy_threshold = [a]).
Proof.
  split.
  - intros H.
    specialize (H offline_env (titled "A" " ") (titled "B" " ") false 90%Q eq_refl).
    by vm_compute in H; discriminate H.
  - intros H.
    specialize (H offline_env (titled "" "u1") (titled "" "u2") false 90%Q).
    vm_compute in H. discriminate H; [right; right; discriminate | done].
Qed.

(** ** Timestamps *)



(** ** Adapters *)

Section AdapterProps.

Variable E : Env.
Variable self : BaseSource.



End AdapterProps.


(** A feed of three entries: one published 2023-11-14 22:13:20 UTC, one
    without a published time, one without a title.  Two items come out, with
    the timestamps 1700000000 and 0. *)
Lemma RssSource_fetch_run :
  ∃ x y,
    RssSource_fetch offline_env (BaseSource_init (typed_cfg "rss" "f"))
      (RssFeed [ {| e_title := Some "T1"; e_link := Some "http://f/1";
                    e_published_parsed :=
                      Some {| tm_year := 2023; tm_mon := 11; tm_mday := 14;
                              tm_hour := 22; tm_min := 13; tm_sec := 20;
                              tm_wday := 1; tm_yday := 318; tm_isdst := 0 |};
                    e_now := 1800000000 |};
                 {| e_title := Some "T2"; e_link := Some "http://f/2";
                    e_published_parsed := None; e_now := 1800000000 |};
                 {| e_title := None; e_link := Some "http://f/3";
                    e_published_parsed := None; e_now := 1800000000 |} ])
    = Ok [x; y] ∧ Item.ts x = 1700000000 ∧ Item.ts y = 0.
Proof. do 2 eexists. split; [reflexivity|]. by vm_compute. Qed.

(** C2, at the input where it fails.  The REST adapter tests the title and
    the URL before they are trimmed: an element whose URL is one blank
    passes the test and becomes an item whose [url] is empty. *)
Theorem RestSource_fetch_blank_url (E : Env) (self : BaseSource) (now : Z) :
  ∃ x, RestSource_fetch E self
         (RestList [{| row_title := PStr "A"; row_url := PStr " ";
                       row_ts := PNone; row_rank := PNone; row_now := now |}]) = Ok [x]
       ∧ Item.url x = "".
Proof. eexists. by split. Qed.

(** The same happens to a blank title, and in the RSS and HTML adapters. *)
Lemma adapters_blank_title :
  (∃ x, RestSource_fetch offline_env (BaseSource_init (typed_cfg "rest" "k"))
          (RestList [{| row_title := PStr " "; row_url := PStr "http://u/";
                        row_ts := PNone; row_rank := PNone; row_now := 7 |}]) = Ok [x]
        ∧ Item.title x = "") ∧
  (∃ x, RssSource_fetch offline_env (BaseSource_init (typed_cfg "rss" "k"))
          (RssFeed [{| e_title := Some " "; e_link := Some "http://u/";
                       e_published_parsed := None; e_now := 7 |}]) = Ok [x]
        ∧ Item.title x = "") ∧
  (∃ x, HtmlSource_fetch offline_env (BaseSource_init (typed_cfg "html" "k"))
          (HtmlPage "http://h/" [{| n_title := " "; n_url := "http://u/";
                                    n_ts := None; n_now := 7 |}]) = Ok [x]
        ∧ Item.title x = "").
Proof. repeat split; eexists; by split. Qed.

(** ** Orchestrator *)

Lemma build_tasks_length (src_cfgs : list SourceCfg) :
  (length (build_tasks src_cfgs) ≤ length src_cfgs)%nat.
Proof.
  induction src_cfgs as [|c l IH]; simpl; [done|].
  unfold build_tasks in *. simpl. destruct (_build_source c); simpl; lia.
Qed.

Lemma collect_spec (src_cfgs : list SourceCfg) (results : list (result (list Item.t)))
    (i : nat) (merged : list Item.t) (log : list LogLine) :
  (i + length results ≤ length src_cfgs)%nat →
  ∃ log', collect src_cfgs i results merged log = Ok (merged ++ successes results, log ++ log')
          ∧ log_err <$> log' = failures results.
Proof.
  revert i merged log. induction results as [|[r|e] l IH]; intros i merged log Hi; simpl.
  - exists []. by rewrite !app_nil_r.
  - destruct (IH (S i) (merged ++ r) log) as (log' & -> & Hlog); [simpl in Hi; lia|].
    exists log'. unfold successes, failures. simpl. by rewrite <- app_assoc.
  - destruct (lookup_lt_is_Some_2 src_cfgs i) as [c ->]; [simpl in Hi; lia|].
    edestruct (IH (S i) merged) as (log' & -> & Hlog); [simpl in Hi; lia|].
    eexists (_ :: log'). rewrite <- app_assoc. split; [done|].
    unfold failures in *. rewrite !fmap_cons. simpl. by f_equal.
Qed.

(** What [fetch_custom_all] does keep of C1: it always returns; the list is
    the items of the tasks that returned, in config order, as dicts; a task
    that raised adds nothing to it and one line to the log. *)
Lemma fetch_custom_all_items (E : Env) (w : World) (src_cfgs : list SourceCfg) :
  let results := gather E w (build_tasks src_cfgs) in
  ∃ log, fetch_custom_all E w src_cfgs = Ok (to_dict <$> successes results, log)
         ∧ log_err <$> log = failures results.
Proof.
  intros results. unfold fetch_custom_all. fold results.
  destruct (collect_spec src_cfgs results 0 [] []) as (log & -> & Hlog).
  - subst results. unfold gather. rewrite length_imap. apply build_tasks_length.
  - by exists log.
Qed.

(** C1, at the input where it fails.  Two configs: the first of a type that
    is not recognised, with key "a", the second a REST source with key "b"
    whose request is answered with status 500.  The failure of "b" is
    printed under the key "a": the position of the failed task is looked up
    in the list of configs, which still holds the skipped one. *)
Theorem fetch_custom_all_logs_other_key (E : Env) :
  fetch_custom_all E (rest_down []) [typed_cfg "xml" "a"; typed_cfg "rest" "b"]
  = Ok ([], [{| log_key := "a"; log_err := HTTPStatusError |}]).
Proof. reflexivity. Qed.

(** The isolation scenario: a REST source answered with status 500, a feed
    with two entries and a page without items give the two feed items and
    one log line. *)
Lemma fetch_custom_all_scenario :
  let feed := [ {| e_title := Some "T1"; e_link := Some "http://f/1";
                   e_published_parsed := None; e_now := 7 |};
                {| e_title := Some "T2"; e_link := Some "http://f/2";
                   e_published_parsed := None; e_now := 7 |} ] in
  match fetch_custom_all offline_env (rest_down feed)
          [typed_cfg "rest" "r"; typed_cfg "rss" "f"; typed_cfg "html" "h"] with
  | Ok (items, log) =>
      get_title <$> items = [Some "T1"; Some "T2"] ∧
      get_source_key <$> items = [Some "f"; Some "f"] ∧
      log = [{| log_key := "r"; log_err := HTTPStatusError |}]
  | Raise _ => False
  end.
Proof. by vm_compute. Qed.

(** ** Reshape *)


(** The rank that is appended: the item's own for an int that is not
    negative and for a str of decimal digits, else the next number. *)
Lemma rank_or_next_spec (rank : PyVal) (len : nat) :
  match rank with
  | PInt n => rank_or_next rank len = Ok (if 0 <=? n then n else Z.of_nat len + 1)
  | PStr s =>
      if all_chars is_decimal_char s && truthy_str s
      then rank_or_next rank len = Ok (decimal_value 0 s)
      else isdigit s = false → rank_or_next rank len = Ok (Z.of_nat len + 1)
  | _ => rank_or_next rank len = Ok (Z.of_nat len + 1)
  end.
Proof.
  destruct rank as [|b|n|f|s|b]; simpl; try done.
  destruct (all_chars is_decimal_char s && truthy_str s) eqn:Hs.
  - apply andb_true_iff in Hs as [Hdec Hne]. unfold isdigit, int_of_digits.
    rewrite Hne, Hdec. simpl.
    assert (all_chars py_isdigit_char s = true) as ->; [|done].
    clear Hne. induction s as [|c s IH]; simpl in *; [done|].
    apply andb_true_iff in Hdec as [Hc Hs]. rewrite IH by done.
    unfold py_isdigit_char, is_decimal_char in *. by rewrite Hc.
  - by intros ->.
Qed.

(** The scenario of the reshape: the same title twice, no rank, gives the
    ranks 1 and 2. *)
Lemma custom_to_results_scenario :
  ∃ r, custom_to_results [ranked "s1" "A" "u1" PNone; ranked "s1" "A" "u1" PNone] = Ok r
       ∧ entry_at r "custom:s1" "A" = Some {| ranks := [1; 2]; url := "u1"; mobileUrl := "" |}.
Proof. eexists. split; [reflexivity|]. by vm_compute. Qed.

(** C9, at the input where it fails.  The rank "²" (one superscript two)
    passes [str(rank).isdigit()], and [int(rank)] then raises ValueError:
    [custom_to_results] returns nothing, where the specification appends the
    next number, 1. *)
Theorem custom_to_results_superscript_rank :
  isdigit superscript_two = true ∧
  custom_to_results [ranked "s1" "A" "u1" (PStr superscript_two)] = Raise ValueError.
Proof. split; reflexivity. Qed.


Lemma setdefault_bucket_eq (results : gmap string (gmap string Entry)) (sid : string) :
  setdefault_bucket results sid !! sid = Some (default ∅ (results !! sid)).
Proof.
  unfold setdefault_bucket. destruct (results !! sid) as [b|] eqn:Hb; simpl; [done|].
  by rewrite lookup_insert_eq.
Qed.

(** One round appends one rank to the entry of the item's title. *)
Lemma reshape_step_appends (st : Reshaped) (it : ItemDict) (r : Z) :
  let title := strip (or_empty (get_title it)) in
  let old := default [] (ranks <$> entry_at st (sid_of it) title) in
  title ≠ "" →
  rank_or_next (get_rank it) (length old) = Ok r →
  ∃ st', reshape_step st it = Ok st'
         ∧ ranks <$> entry_at st' (sid_of it) title = Some (old ++ [r]).
Proof.
  intros title old Hne Hr. apply truthy_str_true in Hne.
  unfold reshape_step. fold title. rewrite Hne. simpl.
  rewrite setdefault_bucket_eq. simpl.
  assert (default ∅ (c_results st !! sid_of it) !! title = entry_at st (sid_of it) title) as ->.
  { unfold entry_at. by destruct (c_results st !! sid_of it). }
  subst old.
  destruct (entry_at st (sid_of it) title) as [e|]; simpl in *; rewrite Hr; simpl;
    eexists; (split; [done|]); unfold entry_at; simpl;
    rewrite lookup_insert_eq; simpl; by rewrite lookup_insert_eq.
Qed.











(** ** Rate limiter *)

Section LimiterProps.

Variable self : BaseSource.
Hypothesis interval_pos : (0 < min_interval self)%Q.








End LimiterProps.

(** [min_interval] is 60 / rpm when an rpm is configured and not zero. *)
Lemma BaseSource_init_min_interval (c : SourceCfg) (rpm : Q) :
  cfg_rpm c = Some rpm → ¬ (rpm == 0)%Q →
  (min_interval (BaseSource_init c) == 60 / rpm)%Q.
Proof.
  intros Hc Hrpm. unfold BaseSource_init. simpl. rewrite Hc.
  destruct (Qeq_bool rpm 0) eqn:H0; [|reflexivity].
  by apply Qeq_bool_iff in H0.
Qed.


(** A run of two calls on a source with rpm 60, both made at time 5.  The
    first proceeds at once; the second takes the lock after it, sleeps, and
    proceeds at time 6.  While the first holds the lock the second cannot
    take it, and the second cannot leave its sleep before time 6. *)
Lemma rate_limit_run :
  let self := BaseSource_init
                {| cfg_type := Some "rest"; cfg_key := Some "k"; cfg_name := None;
                   cfg_rpm := Some 60%Q |} in
  callers <$> steps self (Limiter_init 2 5)
    [Run 0; Run 1; Run 0; Run 0; Run 0; Run 1; Run 1; Tick 1; Run 1; Run 1]
  = Some [Proceeded 5; Proceeded 6]
  ∧ steps self (Limiter_init 2 5) [Run 0; Run 1; Run 0; Run 1] = None
  ∧ steps self (Limiter_init 2 5)
      [Run 0; Run 1; Run 0; Run 0; Run 0; Run 1; Run 1; Run 1] = None.
Proof. repeat split; by vm_compute. Qed.

(** ** Trimming *)

Lemma rstrip_idemp (s : string) : rstrip (rstrip s) = rstrip s.
Proof.
  induction s as [|c s IH]; simpl; [done|].
  destruct (rstrip s) as [|d r] eqn:Hr.
  - destruct (py_isspace c) eqn:Hc; simpl; [done|]. by rewrite Hc.
  - simpl in *. by rewrite IH.
Qed.

Lemma rstrip_head (c : ascii) (s : string) :
  py_isspace c = false → rstrip (String c s) = String c (rstrip s).
Proof. intros Hc. simpl. destruct (rstrip s); [by rewrite Hc|done]. Qed.

Lemma lstrip_head (s : string) :
  lstrip s = "" ∨ ∃ c s', lstrip s = String c s' ∧ py_isspace c = false.
Proof.
  induction s as [|c s IH]; simpl; [by left|].
  destruct (py_isspace c) eqn:Hc; [done|]. right. eauto.
Qed.

(** [strip] leaves a stripped string as it is. *)
Lemma strip_idemp (s : string) : strip (strip s) = strip s.
Proof.
  unfold strip. destruct (lstrip_head s) as [->|(c & s' & -> & Hc)]; [done|].
  rewrite rstrip_head by done. simpl. rewrite Hc.
  rewrite rstrip_head by done. by rewrite rstrip_idemp.
Qed.

Lemma normalize_text_stripped (E : Env) (s : string) (use_opencc : bool) :
  strip (normalize_text E s use_opencc) = normalize_text E s use_opencc.
Proof.
  unfold normalize_text. destruct (negb (truthy_str s)); [done|]. apply strip_idemp.
Qed.

(** ** Items of the adapters *)

Lemma mk_item_item_of (E : Env) (self : BaseSource) (now : Z)
    (title url ts rank : PyVal) (x : Item.t) :
  _mk_item E self now title url ts rank = Ok x → item_of E self x.
Proof.
  unfold _mk_item.
  destruct (match title with PStr s => _ | _ => _ end) as [t|] eqn:Ht; simpl; [|done].
  destruct (match url with PStr s => _ | _ => _ end) as [u|] eqn:Hu; simpl; [|done].
  destruct (parse_ts E now ts) as [n|]; simpl; [|done].
  intros [= <-]. repeat split; simpl.
  - destruct title as [|b|k|f|s|b]; simpl in Ht; repeat case_match; simplify_eq; try done;
      apply normalize_text_stripped.
  - destruct url as [|b|k|f|s|b]; simpl in Hu; repeat case_match; simplify_eq; try done;
      apply strip_idemp.
Qed.

Section AdapterItems.

Variable E : Env.
Variable self : BaseSource.

Lemma rest_loop_cons (it : RestRow) (lst : list RestRow) (items : list Item.t) :
  rest_loop E self (it :: lst) items =
  if negb (rest_kept it) then rest_loop E self lst items
  else
    x ← _mk_item E self (row_now it) (row_title it) (row_url it) (row_ts it) (row_rank it);
    rest_loop E self lst (items ++ [x]).
Proof. unfold rest_kept. by rewrite negb_andb. Qed.

Lemma rss_loop_cons (e : FeedEntry) (entries : list FeedEntry) (items : list Item.t) :
  rss_loop E self (e :: entries) items =
  if negb (rss_kept e) then rss_loop E self entries items
  else
    ts ← match e_published_parsed e with Some p => mktime E p | None => Ok 0 end;
    x ← _mk_item E self (e_now e) (PStr (or_empty (e_title e)))
          (PStr (or_empty (e_link e))) (PInt ts) PNone;
    rss_loop E self entries (items ++ [x]).
Proof. unfold rss_kept. by rewrite negb_andb. Qed.

Lemma html_loop_cons (ep : string) (a : HtmlNode) (nodes : list HtmlNode)
    (items : list Item.t) :
  html_loop E self ep (a :: nodes) items =
  if negb (html_kept E ep a) then html_loop E self ep nodes items
  else
    x ← _mk_item E self (n_now a) (PStr (n_title a)) (PStr (html_url E ep a))
          (match n_ts a with Some s => PStr s | None => PNone end) PNone;
    html_loop E self ep nodes (items ++ [x]).
Proof. unfold html_kept. by rewrite negb_andb. Qed.

(** What holds of every item [_mk_item] makes holds of every item of a
    loop; the RSS and HTML loops pass no rank. *)
Lemma rest_loop_Forall (P : Item.t → Prop) (lst : list RestRow) (items out : list Item.t) :
  (∀ now title url ts rank x, _mk_item E self now title url ts rank = Ok x → P x) →
  rest_loop E self lst items = Ok out → Forall P items → Forall P out.
Proof.
  intros HP. revert items. induction lst as [|it l IH]; intros items.
  - by intros [= <-].
  - rewrite rest_loop_cons. destruct (negb (rest_kept it)); [apply IH|].
    destruct (_mk_item _ _ _ _ _ _ _) as [x|] eqn:Hx; [|done]. cbn [mbind result_bind].
    intros Hout Hitems. apply (IH _ Hout), Forall_app. split; [done|].
    apply Forall_singleton. by eapply HP.
Qed.

Lemma rss_loop_Forall (P : Item.t → Prop) (entries : list FeedEntry)
    (items out : list Item.t) :
  (∀ now title url ts x, _mk_item E self now title url ts PNone = Ok x → P x) →
  rss_loop E self entries items = Ok out → Forall P items → Forall P out.
Proof.
  intros HP. revert items. induction entries as [|e l IH]; intros items.
  - by intros [= <-].
  - rewrite rss_loop_cons. destruct (negb (rss_kept e)); [apply IH|].
    destruct (match e_published_parsed e with Some p => _ | None => _ end) as [t|]; [|done].
    cbn [mbind result_bind].
    destruct (_mk_item _ _ _ _ _ _ _) as [x|] eqn:Hx; [|done]. cbn [mbind result_bind].
    intros Hout Hitems. apply (IH _ Hout), Forall_app. split; [done|].
    apply Forall_singleton. by eapply HP.
Qed.

Lemma html_loop_Forall (P : Item.t → Prop) (ep : string) (nodes : list HtmlNode)
    (items out : list Item.t) :
  (∀ now title url ts x, _mk_item E self now title url ts PNone = Ok x → P x) →
  html_loop E self ep nodes items = Ok out → Forall P items → Forall P out.
Proof.
  intros HP. revert items. induction nodes as [|a l IH]; intros items.
  - by intros [= <-].
  - rewrite html_loop_cons. destruct (negb (html_kept E ep a)); [apply IH|].
    destruct (_mk_item _ _ _ _ _ _ _) as [x|] eqn:Hx; [|done]. cbn [mbind result_bind].
    intros Hout Hitems. apply (IH _ Hout), Forall_app. split; [done|].
    apply Forall_singleton. by eapply HP.
Qed.

End AdapterItems.

Lemma mk_item_rank (E : Env) (self : BaseSource) (now : Z)
    (title url ts rank : PyVal) (x : Item.t) :
  _mk_item E self now title url ts rank = Ok x → Item.rank x = rank.
Proof.
  unfold _mk_item.
  destruct (match title with PStr s => _ | _ => _ end) as [t|]; simpl; [|done].
  destruct (match url with PStr s => _ | _ => _ end) as [u|]; simpl; [|done].
  destruct (parse_ts E now ts) as [n|]; simpl; [|done].
  by intros [= <-].
Qed.

(** What holds of every item [_mk_item] makes for a source holds of every
    item its fetch returns. *)
Lemma fetch_Forall (E : Env) (w : World) (i : nat) (s : Source) (P : Item.t → Prop)
    (out : list Item.t) :
  (∀ now title url ts rank x,
     (match s with RestSource _ => True | _ => rank = PNone end) →
     _mk_item E (base_of s) now title url ts rank = Ok x → P x) →
  fetch E w i s = Ok out → Forall P out.
Proof.
  intros HP. destruct s as [self|self|self]; simpl in *.
  - unfold RestSource_fetch. destruct (rest_response w i); [done|].
    intros H. eapply rest_loop_Forall; [|done..]. intros. by eapply HP.
  - unfold RssSource_fetch. destruct (rss_response w i); [done|].
    intros H. eapply rss_loop_Forall; [|done..]. intros. by eapply HP.
  - unfold HtmlSource_fetch. destruct (html_response w i); [done|].
    intros H. eapply html_loop_Forall; [|done..]. intros. by eapply HP.
Qed.

(** Whatever the class of the source and whatever the network answered,
    every item a fetch returns has a title and a URL without blanks around
    them, the display name and the key of its source, and as id the digest
    of key, title and URL. *)
Theorem fetch_item_of (E : Env) (w : World) (i : nat) (s : Source) (out : list Item.t) :
  fetch E w i s = Ok out → Forall (item_of E (base_of s)) out.
Proof.
  apply fetch_Forall. intros now title url ts rank x _. apply mk_item_item_of.
Qed.

Lemma fetch_item_of_witness :
  ∃ out,
    fetch offline_env
      (rest_down [{| e_title := Some " T1 "; e_link := Some " http://f/1";
                     e_published_parsed := None; e_now := 7 |}])
      0 (RssSource (BaseSource_init (typed_cfg "rss" "f"))) = Ok out
    ∧ length out = 1%nat
    ∧ Forall (item_of offline_env (BaseSource_init (typed_cfg "rss" "f"))) out.
Proof.
  eexists. split; [reflexivity|]. split; [reflexivity|].
  apply (fetch_item_of offline_env
           (rest_down [{| e_title := Some " T1 "; e_link := Some " http://f/1";
                          e_published_parsed := None; e_now := 7 |}])
           0 (RssSource (BaseSource_init (typed_cfg "rss" "f")))).
  reflexivity.
Defined.


Section RestProps.

Variable E : Env.
Variable self : BaseSource.

Lemma parse_ts_returns (now : Z) (v : PyVal) :
  is_nan_or_inf v = false → ∃ t, parse_ts E now v = Ok t.
Proof.
  destruct v as [|b|n|[|neg|q]|s|b]; simpl; try done; eauto.
  destruct (dtparse E s); eauto.
Qed.

Lemma parse_ts_raises (now : Z) (v : PyVal) (e : PyExn) :
  parse_ts E now v = Raise e → is_nan_or_inf v = true.
Proof.
  destruct v as [|b|n|[|neg|q]|s|b]; simpl; try done.
  by destruct (dtparse E s).
Qed.

(** [_mk_item] on a kept element: it returns exactly on well-typed input. *)
Lemma mk_item_kept (it : RestRow) :
  rest_kept it = true →
  match _mk_item E self (row_now it) (row_title it) (row_url it) (row_ts it) (row_rank it) with
  | Ok x => row_ok it = true ∧ rest_item E it x
  | Raise _ => row_ok it = false
  end.
Proof.
  unfold rest_kept, row_ok, rest_item, _mk_item. intros [Ht Hu]%andb_true_iff.
  destruct (row_title it) as [|b|n|f|s|b] eqn:Htitle; simpl in *;
    try (destruct b; simplify_eq); try done;
    try (rewrite Ht; simpl; done).
  destruct (row_url it) as [|b|n|f|u|b] eqn:Hurl; simpl in *;
    try (destruct b; simplify_eq); try done;
    try (rewrite Hu; simpl; done).
  destruct (parse_ts E (row_now it) (row_ts it)) as [t|e] eqn:Hts; simpl.
  - split; [|done]. destruct (is_nan_or_inf (row_ts it)) eqn:Hn; [|done].
    destruct (row_ts it) as [| | |[| |]| |]; simpl in *; try done. by destruct negative.
  - by rewrite (parse_ts_raises _ _ _ Hts).
Qed.

Lemma rest_loop_spec (lst : list RestRow) (items out : list Item.t) :
  rest_loop E self lst items = Ok out →
  Forall (λ it, rest_kept it = true → row_ok it = true) lst ∧
  ∃ new, out = items ++ new ∧
         Forall2 (rest_item E) (filter (λ it, rest_kept it = true) lst) new.
Proof.
  revert items. induction lst as [|it l IH]; intros items.
  - intros [= <-]. split; [done|]. exists []. by rewrite app_nil_r.
  - rewrite rest_loop_cons. destruct (rest_kept it) eqn:Hk; simpl.
    + pose proof (mk_item_kept it Hk) as Hmk.
      destruct (_mk_item _ _ _ _ _ _ _) as [x|]; [|done]. cbn [mbind result_bind].
      destruct Hmk as [Hok Hx].
      intros (Hl & new & -> & Hnew)%IH. split; [by constructor|].
      exists (x :: new). rewrite <- app_assoc. split; [done|].
      rewrite filter_cons_True by done. by constructor.
    + intros (Hl & new & -> & Hnew)%IH. split; [constructor; [congruence|done]|].
      exists new. split; [done|]. by rewrite filter_cons_False by congruence.
Qed.

Lemma rest_loop_returns (lst : list RestRow) (items : list Item.t) :
  Forall (λ it, rest_kept it = true → row_ok it = true) lst →
  ∃ out, rest_loop E self lst items = Ok out.
Proof.
  revert items. induction lst as [|it l IH]; intros items Hl; [by eexists|].
  apply Forall_cons in Hl as [Hit Hl].
  rewrite rest_loop_cons. destruct (rest_kept it) eqn:Hk; simpl; [|by apply IH].
  pose proof (mk_item_kept it Hk) as Hmk.
  destruct (_mk_item _ _ _ _ _ _ _) as [x|]; [|by rewrite Hit in Hmk].
  cbn [mbind result_bind]. by apply IH.
Qed.

End RestProps.

(** The REST adapter returns exactly when every element it keeps (title and
    URL truthy) has a str as title, a str as URL and a timestamp that is not
    NaN or an infinity: one element with a number as title makes the whole
    fetch raise.  When it returns there is one item for each kept element, in
    order: the title normalised, the URL trimmed, the timestamp from
    [parse_ts], and the rank of the element passed through as it is. *)
Theorem RestSource_fetch_returns (E : Env) (self : BaseSource) (lst : list RestRow) :
  ((∃ out, RestSource_fetch E self (RestList lst) = Ok out) ↔
   Forall (λ it, rest_kept it = true → row_ok it = true) lst) ∧
  (∀ out, RestSource_fetch E self (RestList lst) = Ok out →
     Forall2 (rest_item E) (filter (λ it, rest_kept it = true) lst) out).
Proof.
  simpl. split; [split|].
  - intros [out Hout]. by apply rest_loop_spec in Hout as [? _].
  - apply rest_loop_returns.
  - intros out (_ & new & -> & Hnew)%rest_loop_spec. done.
Qed.

(** ** Dedup and merge, continued *)

Section DedupMore.

Variable E : Env.
Variable enable_fuzzy : bool.
Variable fuzzy_threshold : Q.

Abbreviation dedup_of l := (dedup_items E l enable_fuzzy fuzzy_threshold).
Abbreviation dup_of := (duplicates E enable_fuzzy fuzzy_threshold).

Lemma dedup_items_snoc (l : list ItemDict) (x : ItemDict) :
  dedup_of (l ++ [x])
  = dedup_of l ++ (if existsb (dup_of x) (dedup_of l) then [] else [x]).
Proof.
  unfold dedup_items. rewrite dedup_loop_snoc.
  rewrite <- is_dup_spec by apply seen_inv_loop, seen_inv_init.
  unfold dedup_step. destruct (is_dup _ _ _ _ x); [by rewrite app_nil_r|done].
Qed.

(** No kept item duplicates a kept item before it. *)
Lemma dedup_items_fresh (L pre post : list ItemDict) (x : ItemDict) :
  dedup_of L = pre ++ x :: post → existsb (dup_of x) pre = false.
Proof.
  revert pre post. induction L as [|y l IH] using rev_ind; intros pre post.
  - intros H. by destruct pre.
  - rewrite dedup_items_snoc. destruct (existsb (dup_of y) (dedup_of l)) eqn:Hy.
    + rewrite app_nil_r. apply IH.
    + destruct post as [|z post _] using rev_ind.
      * intros [<- <-]%(app_inj_tail (dedup_of l) pre y x). done.
      * rewrite app_comm_cons, app_assoc.
        intros [Hl _]%app_inj_tail. by eapply IH.
Qed.

(** A list in which no item duplicates an earlier one is left as it is. *)
Lemma dedup_items_keeps (L : list ItemDict) :
  (∀ pre x post, L = pre ++ x :: post → existsb (dup_of x) pre = false) → dedup_of L = L.
Proof.
  induction L as [|y l IH] using rev_ind; intros H; [done|].
  rewrite dedup_items_snoc, IH.
  - by rewrite (H l y []).
  - intros pre x post ->. apply (H pre x (post ++ [y])). by rewrite <- app_assoc.
Qed.

End DedupMore.

(** In the list [dedup_items] returns no item duplicates an earlier one.  So
    two kept items never have the same URL, unless it is empty after
    trimming, and never the same title key, unless it is empty. *)
Theorem dedup_items_pairwise (E : Env) (L : list ItemDict)
    (enable_fuzzy : bool) (fuzzy_threshold : Q) :
  let out := dedup_items E L enable_fuzzy fuzzy_threshold in
  (∀ pre x post, out = pre ++ x :: post →
     existsb (duplicates E enable_fuzzy fuzzy_threshold x) pre = false) ∧
  (∀ i j a b, (i < j)%nat → out !! i = Some a → out !! j = Some b →
     (url_of a = url_of b → url_of b = "") ∧
     (tkey_of E a = tkey_of E b → tkey_of E b = "")).
Proof.
  intros out. split; [intros pre x post; apply dedup_items_fresh|].
  intros i j a b Hij Ha Hb.
  pose proof (take_drop_middle _ _ _ Hb) as Hout. symmetry in Hout.
  apply dedup_items_fresh in Hout.
  assert (a ∈ take j out) as Hin.
  { apply list_elem_of_lookup. exists i. by rewrite lookup_take_lt. }
  assert (duplicates E enable_fuzzy fuzzy_threshold b a = false) as Hd.
  { destruct (duplicates _ _ _ b a) eqn:Hd; [|done].
    rewrite <- Hout. symmetry. apply existsb_exists. exists a.
    by rewrite <- list_elem_of_In. }
  unfold duplicates in Hd. apply orb_false_iff in Hd as [[Hu Ht]%orb_false_iff _].
  split; intros Heq.
  - rewrite Heq, String.eqb_refl, andb_true_r in Hu. by destruct (url_of b).
  - rewrite Heq, String.eqb_refl, andb_true_r in Ht. by destruct (tkey_of E b).
Qed.

(** [dedup_items] returns its input unchanged exactly when no item of the
    input duplicates an earlier one (by URL, title key or fuzzy score). *)
Theorem dedup_items_fixed_point (E : Env) (L : list ItemDict)
    (enable_fuzzy : bool) (fuzzy_threshold : Q) :
  dedup_items E L enable_fuzzy fuzzy_threshold = L ↔
  ∀ pre x post, L = pre ++ x :: post →
    existsb (duplicates E enable_fuzzy fuzzy_threshold x) pre = false.
Proof.
  split.
  - intros H pre x post HL. rewrite HL in H. by eapply dedup_items_fresh.
  - apply dedup_items_keeps.
Qed.

(** [merge_items] gives the base items the first word: its result starts
    with what [dedup_items] keeps of the base list alone, and goes on with
    custom items only, in their order, none of which duplicates a kept base
    item. *)
Theorem merge_items_base_first (E : Env) (base_items custom_items : list ItemDict)
    (enable_fuzzy : bool) (fuzzy_threshold : Q) :
  ∃ kept,
    merge_items E base_items custom_items enable_fuzzy fuzzy_threshold
    = dedup_items E base_items enable_fuzzy fuzzy_threshold ++ kept
    ∧ sublist kept custom_items
    ∧ Forall (λ x, existsb (duplicates E enable_fuzzy fuzzy_threshold x)
                     (dedup_items E base_items enable_fuzzy fuzzy_threshold) = false) kept.
Proof.
  unfold merge_items.
  assert (∃ kept, dedup_items E (base_items ++ custom_items) enable_fuzzy fuzzy_threshold
                  = dedup_items E base_items enable_fuzzy fuzzy_threshold ++ kept
                  ∧ sublist kept custom_items) as (kept & Hm & Hsub).
  { unfold dedup_items. rewrite dedup_loop_app. apply out_dedup_loop. }
  exists kept. split; [done|]. split; [done|].
  apply Forall_forall. intros x Hx.
  apply list_elem_of_split in Hx as (k1 & k2 & ->).
  rewrite app_assoc in Hm. apply dedup_items_fresh in Hm.
  rewrite existsb_app in Hm. by apply orb_false_iff in Hm as [? _].
Qed.

(** Without RapidFuzz the switch and the threshold of the fuzzy matching
    change nothing. *)
Theorem dedup_items_without_fuzz (E : Env) (L : list ItemDict)
    (enable_fuzzy enable_fuzzy' : bool) (fuzzy_threshold fuzzy_threshold' : Q) :
  fuzz E = None →
  dedup_items E L enable_fuzzy fuzzy_threshold = dedup_items E L enable_fuzzy' fuzzy_threshold'.
Proof.
  intros Hfuzz. unfold dedup_items, dedup_loop. f_equal.
  generalize dedup_init. induction L as [|x l IH]; intros st; simpl; [done|].
  assert (dedup_step E enable_fuzzy fuzzy_threshold st x
          = dedup_step E enable_fuzzy' fuzzy_threshold' st x) as ->; [|apply IH].
  unfold dedup_step, is_dup, fuzzy_dup. rewrite Hfuzz.
  by destruct enable_fuzzy, enable_fuzzy'.
Qed.

Lemma dedup_items_without_fuzz_witness :
  dedup_items offline_env [titled "A" "u1"; titled "A b" "u2"; titled "A" "u3"] true 50%Q
  = dedup_items offline_env [titled "A" "u1"; titled "A b" "u2"; titled "A" "u3"] false 90%Q.
Proof. by apply dedup_items_without_fuzz. Defined.

(** ** Reshape, continued *)

Lemma entry_at_bucket (st : Reshaped) (sid title : string) :
  default ∅ (c_results st !! sid) !! title = entry_at st sid title.
Proof. unfold entry_at. by destruct (c_results st !! sid). Qed.

(** One round of the loop, in terms of the item's source id and title. *)
Lemma reshape_step_eq (st : Reshaped) (it : ItemDict) :
  reshape_step st it =
  let names := <[sid_of it := sname_of it]> (c_id_to_name st) in
  let results := setdefault_bucket (c_results st) (sid_of it) in
  if negb (truthy_str (title_of it))
  then Ok {| c_results := results; c_id_to_name := names |}
  else
    let entry := default {| ranks := []; url := or_empty (get_url it); mobileUrl := "" |}
                   (entry_at st (sid_of it) (title_of it)) in
    r ← rank_or_next (get_rank it) (length (ranks entry));
    Ok {| c_results :=
            <[sid_of it :=
                <[title_of it :=
                    {| ranks := ranks entry ++ [r];
                       url := if truthy_str (url entry) then url entry
                              else or_empty (get_url it);
                       mobileUrl := mobileUrl entry |}]>
                  (default ∅ (c_results st !! sid_of it))]> results;
          c_id_to_name := names |}.
Proof.
  unfold reshape_step, title_of, sname_of. cbv zeta.
  rewrite setdefault_bucket_eq. simpl. by rewrite entry_at_bucket.
Qed.

Lemma rank_or_next_bad (rank : PyVal) (len : nat) :
  match rank_or_next rank len with
  | Ok _ => bad_rank rank = false
  | Raise e => e = ValueError ∧ bad_rank rank = true
  end.
Proof.
  destruct rank as [|b|n|f|s|b]; simpl; try done.
  unfold int_of_digits. destruct (isdigit s); simpl; [|done].
  by destruct (all_chars is_decimal_char s).
Qed.

Lemma reshape_step_result (st : Reshaped) (it : ItemDict) :
  match reshape_step st it with
  | Ok _ => title_of it ≠ "" → bad_rank (get_rank it) = false
  | Raise e => e = ValueError ∧ title_of it ≠ "" ∧ bad_rank (get_rank it) = true
  end.
Proof.
  rewrite reshape_step_eq. cbv zeta.
  destruct (truthy_str (title_of it)) eqn:Ht; simpl.
  - match goal with
    | |- context [rank_or_next ?r ?n] => pose proof (rank_or_next_bad r n) as Hr
    end.
    destruct (rank_or_next _ _); simpl; [done|].
    destruct Hr as [-> Hb]. by apply truthy_str_true in Ht.
  - intros Hne. apply truthy_str_true in Hne. congruence.
Qed.

Lemma reshape_loop_result (items : list ItemDict) (st : Reshaped) :
  match reshape_loop st items with
  | Ok _ => ∀ it, it ∈ items → title_of it ≠ "" → bad_rank (get_rank it) = false
  | Raise e =>
      e = ValueError
      ∧ ∃ it, it ∈ items ∧ title_of it ≠ "" ∧ bad_rank (get_rank it) = true
  end.
Proof.
  revert st. induction items as [|x l IH]; intros st; simpl.
  - intros it Hit. by apply elem_of_nil in Hit.
  - pose proof (reshape_step_result st x) as Hx.
    destruct (reshape_step st x) as [st'|e]; simpl.
    + specialize (IH st'). destruct (reshape_loop st' l) as [r|e].
      * intros it [->|Hit]%elem_of_cons; eauto.
      * destruct IH as (-> & it & Hit & ?). split; [done|].
        exists it. split; [by apply list_elem_of_further|done].
    + destruct Hx as (-> & ? & ?). split; [done|].
      exists x. split; [apply list_elem_of_here|done].
Qed.




















(** ** Orchestrator, continued *)

(** The key of a source is never empty. *)
Lemma BaseSource_init_key (c : SourceCfg) : key (BaseSource_init c) ≠ "".
Proof.
  unfold BaseSource_init. simpl.
  destruct (cfg_key c) as [k|]; [destruct (truthy_str k) eqn:Hk; [by apply truthy_str_true|]|];
    (destruct (cfg_name c) as [n|]; [destruct (truthy_str n) eqn:Hn; [by apply truthy_str_true|]|]);
    done.
Qed.

Lemma build_source_base (c : SourceCfg) (s : Source) :
  _build_source c = Some s → base_of s = BaseSource_init c.
Proof. unfold _build_source. repeat case_match; by intros [= <-]. Qed.

Lemma build_tasks_cons (c : SourceCfg) (src_cfgs : list SourceCfg) :
  build_tasks (c :: src_cfgs) =
  match _build_source c with
  | Some s => s :: build_tasks src_cfgs
  | None => build_tasks src_cfgs
  end.
Proof. unfold build_tasks. simpl. by destruct (_build_source c). Qed.

Section OwnKeys.

Variable E : Env.
Variable w : World.

Lemma collect_own (cfgs suf : list SourceCfg) (i : nat)
    (merged : list Item.t) (log : list LogLine) :
  (∀ j c, suf !! j = Some c → cfgs !! (i + j)%nat = Some c) →
  Forall (λ c, is_Some (_build_source c)) suf →
  ∃ merged',
    collect cfgs i (imap (λ j, fetch E w (i + j)) (build_tasks suf)) merged log
    = Ok (merged',
          log ++ concat (imap (λ j c, match _build_source c with
                                      | Some s =>
                                          match fetch E w (i + j) s with
                                          | Raise e => [log_line (i + j) c e]
                                          | Ok _ => []
                                          end
                                      | None => []
                                      end) suf)).
Proof.
  revert i merged log. induction suf as [|c suf IH]; intros i merged log Hat Hall.
  - exists merged. simpl. by rewrite app_nil_r.
  - apply Forall_cons in Hall as [[s Hs] Hall].
    rewrite build_tasks_cons, Hs. simpl. rewrite Hs, Nat.add_0_r.
    assert (∀ j c', suf !! j = Some c' → cfgs !! (S i + j)%nat = Some c') as Hat'.
    { intros j c' Hj. replace (S i + j)%nat with (i + S j)%nat by lia. by apply (Hat (S j)). }
    assert (imap ((λ j, fetch E w (i + j)) ∘ S) (build_tasks suf)
            = imap (λ j, fetch E w (S i + j)) (build_tasks suf)) as ->.
    { apply imap_ext. intros j x _. simpl. by replace (i + S j)%nat with (S (i + j)) by lia. }
    assert (imap ((λ j c0, match _build_source c0 with
                           | Some s0 =>
                               match fetch E w (i + j) s0 with
                               | Raise e => [log_line (i + j) c0 e]
                               | Ok _ => []
                               end
                           | None => []
                           end) ∘ S) suf
            = imap (λ j c0, match _build_source c0 with
                            | Some s0 =>
                                match fetch E w (S i + j) s0 with
                                | Raise e => [log_line (S i + j) c0 e]
                                | Ok _ => []
                                end
                            | None => []
                            end) suf) as ->.
    { apply imap_ext. intros j x _. simpl. by replace (i + S j)%nat with (S (i + j)) by lia. }
    destruct (fetch E w i s) as [r|e].
    + destruct (IH (S i) (merged ++ r) log Hat' Hall) as (merged' & ->). by exists merged'.
    + pose proof (Hat 0%nat c eq_refl) as Hc. rewrite Nat.add_0_r in Hc. rewrite Hc.
      fold (log_line i c e).
      destruct (IH (S i) merged (log ++ [log_line i c e]) Hat' Hall) as (merged' & ->).
      exists merged'. by rewrite <- app_assoc.

Qed.

End OwnKeys.

Lemma fetch_custom_all_own_log (E : Env) (w : World) (src_cfgs : list SourceCfg) :
  Forall (λ c, is_Some (_build_source c)) src_cfgs →
  ∃ items, fetch_custom_all E w src_cfgs = Ok (items, own_log E w src_cfgs).
Proof.
  intros Hall.
  destruct (collect_own E w src_cfgs src_cfgs 0 [] []) as (merged & Hc); [done..|].
  change (collect src_cfgs 0 (gather E w (build_tasks src_cfgs)) [] []
          = Ok (merged, own_log E w src_cfgs)) in Hc.
  exists (to_dict <$> merged). unfold fetch_custom_all. by rewrite Hc.
Qed.

(** When no config is skipped, that is when every config has one of the
    types rest, rss and html, [fetch_custom_all] prints every failure under
    the key of the source that failed, or under [unknown_source_<i>] when the
    config at position [i] has no key. *)
Theorem fetch_custom_all_own_keys (E : Env) (w : World) (src_cfgs : list SourceCfg) :
  Forall (λ c, is_Some (_build_source c)) src_cfgs →
  ∃ items, fetch_custom_all E w src_cfgs = Ok (items, own_log E w src_cfgs).
Proof. apply fetch_custom_all_own_log. Qed.

Lemma fetch_custom_all_own_keys_witness :
  own_log offline_env (rest_down [])
    [typed_cfg "rss" "a"; typed_cfg "REST" "b";
     {| cfg_type := Some "rest"; cfg_key := None; cfg_name := None; cfg_rpm := None |}]
  = [{| log_key := "b"; log_err := HTTPStatusError |};
     {| log_key := "unknown_source_2"; log_err := HTTPStatusError |}]
  ∧ ∃ items,
      fetch_custom_all offline_env (rest_down [])
        [typed_cfg "rss" "a"; typed_cfg "REST" "b";
         {| cfg_type := Some "rest"; cfg_key := None; cfg_name := None; cfg_rpm := None |}]
      = Ok (items,
            own_log offline_env (rest_down [])
              [typed_cfg "rss" "a"; typed_cfg "REST" "b";
               {| cfg_type := Some "rest"; cfg_key := None; cfg_name := None;
                  cfg_rpm := None |}]).
Proof.
  split; [by vm_compute|].
  apply fetch_custom_all_own_keys. repeat constructor; by eexists.
Defined.

(** The items of the tasks that returned come from the tasks. *)
Lemma elem_of_successes (E : Env) (w : World) (tasks : list Source) (x : Item.t) :
  x ∈ successes (gather E w tasks) →
  ∃ i s out, tasks !! i = Some s ∧ fetch E w i s = Ok out ∧ x ∈ out.
Proof.
  unfold successes, gather. rewrite list_elem_of_In, in_concat.
  intros (l & Hl & Hx). apply list_elem_of_In, list_elem_of_fmap in Hl as (r & -> & Hr).
  apply list_elem_of_lookup in Hr as (i & Hi).
  apply list_lookup_imap_Some in Hi as (s & Hs & ->).
  destruct (fetch E w i s) as [out|] eqn:Hf; [|done].
  exists i, s, out. by rewrite list_elem_of_In.
Qed.

Lemma elem_of_build_tasks (src_cfgs : list SourceCfg) (s : Source) :
  s ∈ build_tasks src_cfgs → ∃ c, c ∈ src_cfgs ∧ _build_source c = Some s.
Proof. unfold build_tasks. by intros ?%list_elem_of_omap. Qed.

Lemma item_of_dict_of (E : Env) (c : SourceCfg) (x : Item.t) :
  item_of E (BaseSource_init c) x → dict_of E c (to_dict x).
Proof.
  intros (Ht & Hu & Hs & Hk & Hid). unfold dict_of, sid_of, title_of, url_of. simpl.
  rewrite Hk, Hs, Hid. repeat split; eauto.
Qed.

(** Every item dict [fetch_custom_all] returns comes from one of the configs
    that were built, and carries that source's key, which is never empty, and
    display name; its source id for the reshape is "custom:" and the key; its
    title and its URL are free of blanks around them, so the dedup and the
    reshape use them as they are; its id is the digest of the three. *)
Theorem fetch_custom_all_dict_of (E : Env) (w : World) (src_cfgs : list SourceCfg)
    (items : list ItemDict) (log : list LogLine) :
  fetch_custom_all E w src_cfgs = Ok (items, log) →
  Forall (λ d, ∃ c, c ∈ src_cfgs ∧ is_Some (_build_source c)
                    ∧ key (BaseSource_init c) ≠ "" ∧ dict_of E c d) items.
Proof.
  destruct (fetch_custom_all_items E w src_cfgs) as (log' & -> & _).
  intros [= <- _]. apply Forall_forall. intros d (x & -> & Hx)%list_elem_of_fmap.
  apply elem_of_successes in Hx as (i & s & out & Hs & Hout & Hx).
  apply list_elem_of_lookup_2, elem_of_build_tasks in Hs as (c & Hc & Hbuild).
  exists c. split; [done|]. split; [by eexists|]. split; [apply BaseSource_init_key|].
  apply item_of_dict_of. rewrite <- (build_source_base _ _ Hbuild).
  assert (Forall (item_of E (base_of s)) out) as Hall.
  { eapply fetch_Forall; [|done]. intros now title url ts rank y _. apply mk_item_item_of. }
  by eapply Forall_forall in Hall.
Qed.

Lemma fetch_custom_all_dict_of_witness :
  ∃ items log,
    fetch_custom_all offline_env (rest_down one_entry_feed)
      [typed_cfg "rest" "r"; typed_cfg "rss" "f"] = Ok (items, log)
    ∧ length items = 1%nat
    ∧ Forall (λ d, ∃ c, c ∈ [typed_cfg "rest" "r"; typed_cfg "rss" "f"]
                        ∧ is_Some (_build_source c)
                        ∧ key (BaseSource_init c) ≠ "" ∧ dict_of offline_env c d) items.
Proof.
  do 2 eexists. split; [reflexivity|]. split; [reflexivity|].
  apply (fetch_custom_all_dict_of offline_env (rest_down one_entry_feed)
           [typed_cfg "rest" "r"; typed_cfg "rss" "f"] _ _ eq_refl).
Defined.

(** With no REST source among the configs, the reshape of what
    [fetch_custom_all] returns cannot raise: the RSS and HTML adapters give
    their items no rank. *)
Theorem custom_to_results_after_fetch (E : Env) (w : World) (src_cfgs : list SourceCfg)
    (items : list ItemDict) (log : list LogLine) :
  fetch_custom_all E w src_cfgs = Ok (items, log) →
  Forall (λ c, lower (or_empty (cfg_type c)) ≠ "rest") src_cfgs →
  Forall (λ d, get_rank d = PNone) items ∧ ∃ r, custom_to_results items = Ok r.
Proof.
  destruct (fetch_custom_all_items E w src_cfgs) as (log' & -> & _).
  intros [= <- _] Hrest.
  assert (Forall (λ d, get_rank d = PNone) (to_dict <$> successes (gather E w (build_tasks src_cfgs))))
    as Hrank.
  { apply Forall_forall. intros d (x & -> & Hx)%list_elem_of_fmap. simpl.
    apply elem_of_successes in Hx as (i & s & out & Hs & Hout & Hx).
    apply list_elem_of_lookup_2, elem_of_build_tasks in Hs as (c & Hc & Hbuild).
    assert (Forall (λ y, Item.rank y = PNone) out) as Hall.
    { eapply fetch_Forall; [|done]. intros now title url ts rank y Hs ->%mk_item_rank.
      destruct s as [self| |]; [|done..].
      eapply Forall_forall in Hrest; [|done]. unfold _build_source in Hbuild.
      destruct (String.eqb_spec (lower (or_empty (cfg_type c))) "rest"); [done|].
      repeat case_match; simplify_eq. }
    by eapply Forall_forall in Hall. }
  split; [done|].
  pose proof (reshape_loop_result
                (to_dict <$> successes (gather E w (build_tasks src_cfgs)))
                {| c_results := ∅; c_id_to_name := ∅ |}) as Hres.
  fold (custom_to_results (to_dict <$> successes (gather E w (build_tasks src_cfgs)))) in Hres.
  destruct (custom_to_results _) as [r|e]; [by eexists|].
  destruct Hres as (_ & d & Hd & _ & Hbad).
  eapply Forall_forall in Hrank; [|done]. by rewrite Hrank in Hbad.
Qed.

Lemma custom_to_results_after_fetch_witness :
  ∃ items log,
    fetch_custom_all offline_env (rest_down one_entry_feed)
      [typed_cfg "html" "h"; typed_cfg "rss" "f"] = Ok (items, log)
    ∧ length items = 1%nat
    ∧ Forall (λ d, get_rank d = PNone) items
    ∧ ∃ r, custom_to_results items = Ok r.
Proof.
  do 2 eexists. split; [reflexivity|]. split; [reflexivity|].
  apply (custom_to_results_after_fetch offline_env (rest_down one_entry_feed)
           [typed_cfg "html" "h"; typed_cfg "rss" "f"] _ _ eq_refl).
  repeat constructor; by vm_compute.
Defined.


(** ** Rate limiter, continued *)

Section LimiterLock.

Variable self : BaseSource.

Lemma steps_app (L : Limiter) (evs1 evs2 : list Event) :
  steps self L (evs1 ++ evs2) = L' ← steps self L evs1; steps self L' evs2.
Proof.
  revert L. induction evs1 as [|ev evs1 IH]; intros L; simpl; [done|].
  destruct (step self L ev); simpl; [apply IH|done].
Qed.

Lemma lock_inv_init (n : nat) (clock : Q) : lock_inv (Limiter_init n clock).
Proof.
  split; simpl; [|done]. intros i pc [-> _]%lookup_replicate. done.
Qed.

(** Call [i] moves to [pc'] and the lock becomes [lk']. *)
Lemma lock_inv_update (L : Limiter) (i : nat) (pc0 pc' : Pc) (lk' : option nat) (last' : Q) :
  lock_inv L →
  callers L !! i = Some pc0 →
  (holds_lock pc' = true ↔ lk' = Some i) →
  (∀ j, j ≠ i → (lk' = Some j ↔ _lock L = Some j)) →
  lock_inv {| _lock := lk'; _last := last'; monotonic := monotonic L;
              callers := <[i := pc']> (callers L) |}.
Proof.
  intros [Hholds Hmade] Hi Hself Hother. pose proof (lookup_lt_Some _ _ _ Hi) as Hlt.
  split; simpl.
  - intros j pc Hj. destruct (decide (j = i)) as [->|Hne].
    + rewrite list_lookup_insert_eq in Hj by done. by simplify_eq.
    + rewrite list_lookup_insert_ne in Hj by done. rewrite Hother by done. by apply Hholds.
  - intros j Hj. destruct (decide (j = i)) as [->|Hne].
    + rewrite list_lookup_insert_eq by done. by eexists.
    + rewrite list_lookup_insert_ne by done. apply Hmade. by apply Hother.
Qed.

Lemma lock_inv_run (L L' : Limiter) (i : nat) :
  lock_inv L → _rate_limit self L i = Some L' → lock_inv L'.
Proof.
  intros HL. pose proof HL as [Hholds _]. unfold _rate_limit.
  destruct (callers L !! i) as [[| | |u| | |t]|] eqn:Hi; try done.
  - destruct (Qle_bool _ 0); intros [= <-];
      apply (lock_inv_update L i Start); try done; apply (Hholds i Start Hi).
  - destruct (_lock L) eqn:Hlock; [done|]. intros [= <-].
    apply (lock_inv_update L i WaitLock); try done.
    intros j Hj. rewrite Hlock. split; [|done]. by intros [= ->].
  - destruct (Qle_bool _ 0); intros [= <-];
      apply (lock_inv_update L i Locked); try done; apply (Hholds i Locked Hi).
  - destruct (Qle_bool u (monotonic L)); [|done]. intros [= <-].
    apply (lock_inv_update L i (Sleeping u)); try done. apply (Hholds i (Sleeping u) Hi).
  - intros [= <-]. apply (lock_inv_update L i Stamping); try done.
    pose proof (proj1 (Hholds i Stamping Hi) eq_refl) as Hlock.
    intros j Hj. rewrite Hlock. split; [done|]. by intros [= ->].
Qed.

Lemma lock_inv_step (L L' : Limiter) (ev : Event) :
  lock_inv L → step self L ev = Some L' → lock_inv L'.
Proof.
  destruct ev as [d|i]; simpl; [|apply lock_inv_run].
  intros HL. destruct (Qle_bool 0 d); [|done]. by intros [= <-].
Qed.

Lemma lock_inv_steps (evs : list Event) (L L' : Limiter) :
  lock_inv L → steps self L evs = Some L' → lock_inv L'.
Proof.
  revert L. induction evs as [|ev evs IH]; intros L HL; simpl.
  - by intros [= <-].
  - destruct (step self L ev) as [L1|] eqn:Hstep; [|done].
    apply IH. by eapply lock_inv_step.
Qed.

(** Running some events first, which leave the other calls alone. *)
Lemma can_return_after (L L1 : Limiter) (i : nat) (evs : list Event) :
  steps self L evs = Some L1 →
  (∀ pc', <[i := pc']> (callers L1) = <[i := pc']> (callers L)) →
  can_return self L1 i → can_return self L i.
Proof.
  intros H1 Hc (evs' & L' & pc' & H2 & Hlock & Hcal & Hret).
  exists (evs ++ evs'), L', pc'. rewrite steps_app, H1. simpl.
  split; [done|]. split; [done|]. split; [|done]. by rewrite Hcal, Hc.
Qed.

Lemma can_return_stamping (L : Limiter) (i : nat) :
  callers L !! i = Some Stamping → can_return self L i.
Proof.
  intros Hi. eexists [Run i], _, (Proceeded (monotonic L)). simpl.
  unfold _rate_limit. rewrite Hi. done.
Qed.

Lemma can_return_sleeping (L : Limiter) (i : nat) (u : Q) :
  callers L !! i = Some (Sleeping u) → can_return self L i.
Proof.
  intros Hi. pose proof (lookup_lt_Some _ _ _ Hi) as Hlt.
  set (d := if Qle_bool u (monotonic L) then 0%Q else (u - monotonic L)%Q).
  assert (Qle_bool 0 d = true ∧ Qle_bool u (monotonic L + d) = true) as [Hd Hwake].
  { subst d. destruct (Qle_bool u (monotonic L)) eqn:Hu.
    - apply Qle_bool_iff in Hu. split; apply Qle_bool_iff; lra.
    - assert (¬ (u <= monotonic L)%Q) as Hnu
        by (intros H; apply Qle_bool_iff in H; congruence).
      split; apply Qle_bool_iff; lra. }
  apply (can_return_after L
           (goto {| _lock := _lock L; _last := _last L;
                    monotonic := (monotonic L + d)%Q; callers := callers L |} i Stamping)
           i [Tick d; Run i]).
  - simpl. rewrite Hd. unfold _rate_limit. simpl. by rewrite Hi, Hwake.
  - intros pc'. simpl. apply list_insert_insert_eq.
  - apply can_return_stamping. simpl. by apply list_lookup_insert_eq.
Qed.

Lemma can_return_locked (L : Limiter) (i : nat) :
  callers L !! i = Some Locked → can_return self L i.
Proof.
  intros Hi. pose proof (lookup_lt_Some _ _ _ Hi) as Hlt.
  destruct (_rate_limit self L i) as [L1|] eqn:Hrun.
  2:{ unfold _rate_limit in Hrun. rewrite Hi in Hrun. by destruct (Qle_bool _ 0). }
  pose proof Hrun as Hrun'. unfold _rate_limit in Hrun'. rewrite Hi in Hrun'.
  apply (can_return_after L L1 i [Run i]); [by simpl; rewrite Hrun| |].
  - intros pc'. destruct (Qle_bool _ 0); injection Hrun' as <-; simpl;
      apply list_insert_insert_eq.
  - destruct (Qle_bool _ 0); injection Hrun' as <-.
    + apply can_return_stamping. simpl. by apply list_lookup_insert_eq.
    + eapply can_return_sleeping. simpl. by apply list_lookup_insert_eq.
Qed.

Lemma can_return_waitlock (L : Limiter) (i : nat) :
  _lock L = None → callers L !! i = Some WaitLock → can_return self L i.
Proof.
  intros Hlock Hi. pose proof (lookup_lt_Some _ _ _ Hi) as Hlt.
  apply (can_return_after L
           {| _lock := Some i; _last := _last L; monotonic := monotonic L;
              callers := <[i := Locked]> (callers L) |} i [Run i]).
  - simpl. unfold _rate_limit. by rewrite Hi, Hlock.
  - intros pc'. simpl. apply list_insert_insert_eq.
  - apply can_return_locked. simpl. by apply list_lookup_insert_eq.
Qed.

Lemma can_return_start (L : Limiter) (i : nat) :
  _lock L = None → callers L !! i = Some Start → can_return self L i.
Proof.
  intros Hlock Hi. pose proof (lookup_lt_Some _ _ _ Hi) as Hlt.
  destruct (Qle_bool (min_interval self) 0) eqn:Hmin.
  - eexists [Run i], _, Passed. simpl. unfold _rate_limit. rewrite Hi, Hmin. done.
  - apply (can_return_after L (goto L i WaitLock) i [Run i]).
    + simpl. unfold _rate_limit. by rewrite Hi, Hmin.
    + intros pc'. simpl. apply list_insert_insert_eq.
    + apply can_return_waitlock; [done|]. simpl. by apply list_lookup_insert_eq.
Qed.

(** A call that has not returned can, when the lock is free or its own. *)
Lemma can_return_one (L : Limiter) (i : nat) (pc : Pc) :
  lock_inv L → callers L !! i = Some pc → returned pc = false →
  _lock L = None ∨ _lock L = Some i →
  can_return self L i.
Proof.
  intros [Hholds _] Hi Hpc Hlock. pose proof (Hholds i pc Hi) as Hh.
  destruct pc as [| | |u| | |t]; try done.
  - apply can_return_start; [|done]. destruct Hlock as [?|Hl]; [done|].
    by apply Hh in Hl.
  - apply can_return_waitlock; [|done]. destruct Hlock as [?|Hl]; [done|].
    by apply Hh in Hl.
  - by apply can_return_locked.
  - by eapply can_return_sleeping.
  - by apply can_return_stamping.
Qed.

(** With the lock free, the first [k] calls can all be run to their return. *)
Lemma can_return_upto (k : nat) (L : Limiter) :
  lock_inv L → _lock L = None →
  ∃ evs L',
    steps self L evs = Some L' ∧ _lock L' = None ∧ lock_inv L' ∧
    length (callers L') = length (callers L) ∧
    ∀ j pc, (j < k)%nat → callers L' !! j = Some pc → returned pc = true.
Proof.
  intros HL Hlock. induction k as [|k IH].
  - exists [], L. do 4 (split; [done|]). intros j pc Hj. lia.
  - destruct IH as (evs & L1 & Hsteps & Hlock1 & HL1 & Hlen & Hret).
    destruct (callers L1 !! k) as [pc|] eqn:Hk.
    + destruct (returned pc) eqn:Hpc.
      * exists evs, L1. do 4 (split; [done|]). intros j pc' Hj Hpc'.
        destruct (decide (j = k)) as [->|Hne]; [by simplify_eq|].
        apply (Hret j); [lia|done].
      * destruct (can_return_one L1 k pc HL1 Hk Hpc (or_introl Hlock1))
          as (evs' & L2 & pc' & Hsteps' & Hlock2 & Hcal & Hpc').
        exists (evs ++ evs'), L2. rewrite steps_app, Hsteps. simpl.
        split; [done|]. split; [done|]. split; [by eapply lock_inv_steps|].
        split; [by rewrite Hcal, length_insert|].
        intros j pc'' Hj. rewrite Hcal. destruct (decide (j = k)) as [->|Hne].
        -- rewrite list_lookup_insert_eq by (by eapply lookup_lt_Some). by intros [= <-].
        -- rewrite list_lookup_insert_ne by done. apply Hret. lia.
    + exists evs, L1. do 4 (split; [done|]). intros j pc' Hj Hpc'.
      destruct (decide (j = k)) as [->|Hne]; [by simplify_eq|].
      apply (Hret j); [lia|done].
Qed.

Lemma can_return_all (L : Limiter) :
  lock_inv L →
  ∃ evs L', steps self L evs = Some L' ∧ Forall (λ pc, returned pc = true) (callers L').
Proof.
  intros HL.
  assert (∃ evs L1, steps self L evs = Some L1 ∧ _lock L1 = None ∧ lock_inv L1)
    as (evs & L1 & Hsteps & Hlock1 & HL1).
  { destruct (_lock L) as [i|] eqn:Hlock; [|by exists [], L].
    destruct HL as [Hholds Hmade]. destruct (Hmade i Hlock) as [pc Hi].
    pose proof (proj2 (Hholds i pc Hi) Hlock) as Hpc.
    destruct (can_return_one L i pc (conj Hholds Hmade) Hi) as (evs & L1 & pc' & Hs & Hl & _);
      [by destruct pc|by right|].
    exists evs, L1. split; [done|]. split; [done|].
    by eapply lock_inv_steps; [apply (conj Hholds Hmade)|]. }
  destruct (can_return_upto (length (callers L1)) L1 HL1 Hlock1)
    as (evs' & L2 & Hsteps' & _ & _ & Hlen & Hret).
  exists (evs ++ evs'), L2. rewrite steps_app, Hsteps. simpl. split; [done|].
  apply Forall_lookup. intros j pc Hj. apply (Hret j); [|done].
  rewrite <- Hlen. by eapply lookup_lt_Some.
Qed.

End LimiterLock.

(** The lock of [_rate_limit] excludes: however any number of calls on one
    source interleave and however time passes, at most one call is between
    taking the lock and releasing it, and the lock is free exactly when none
    is. *)
Theorem rate_limit_lock (self : BaseSource) (n : nat) (clock : Q)
    (evs : list Event) (L : Limiter) :
  steps self (Limiter_init n clock) evs = Some L →
  (∀ i j pc pc', callers L !! i = Some pc → callers L !! j = Some pc' →
     holds_lock pc = true → holds_lock pc' = true → i = j) ∧
  (_lock L = None ↔ Forall (λ pc, holds_lock pc = false) (callers L)).
Proof.
  intros Hsteps.
  destruct (lock_inv_steps self evs _ _ (lock_inv_init n clock) Hsteps) as [Hholds Hmade].
  split.
  - intros i j pc pc' Hi Hj Hpc Hpc'.
    apply (Hholds i pc Hi) in Hpc. apply (Hholds j pc' Hj) in Hpc'. congruence.
  - rewrite Forall_lookup. split.
    + intros Hlock i pc Hi. destruct (holds_lock pc) eqn:Hpc; [|done].
      apply (Hholds i pc Hi) in Hpc. congruence.
    + intros Hnone. destruct (_lock L) as [i|] eqn:Hlock; [|done].
      destruct (Hmade i eq_refl) as [pc Hi].
      pose proof (proj2 (Hholds i pc Hi) eq_refl) as Hpc.
      by rewrite (Hnone i pc Hi) in Hpc.
Qed.

Lemma rate_limit_lock_witness :
  ∃ L,
    steps (BaseSource_init {| cfg_type := Some "rest"; cfg_key := Some "k";
                              cfg_name := None; cfg_rpm := Some 60%Q |})
      (Limiter_init 3 5) [Run 0; Run 1; Run 2; Run 1; Run 1] = Some L
    ∧ callers L = [WaitLock; Stamping; WaitLock]
    ∧ _lock L = Some 1%nat
    ∧ (∀ i j pc pc', callers L !! i = Some pc → callers L !! j = Some pc' →
         holds_lock pc = true → holds_lock pc' = true → i = j)
    ∧ (_lock L = None ↔ Forall (λ pc, holds_lock pc = false) (callers L)).
Proof.
  eexists. split; [by vm_compute|]. split; [reflexivity|]. split; [reflexivity|].
  apply (rate_limit_lock
           (BaseSource_init {| cfg_type := Some "rest"; cfg_key := Some "k";
                               cfg_name := None; cfg_rpm := Some 60%Q |})
           3 5 [Run 0; Run 1; Run 2; Run 1; Run 1]).
  by vm_compute.
Defined.

(** [_rate_limit] cannot deadlock: from every state that any number of
    calls on one source can reach, in any interleaving and with time passing
    in any way, there is a way on (a sleep ends once its time has passed, the
    lock is handed on when it is released) in which every call returns. *)
Theorem rate_limit_no_deadlock (self : BaseSource) (n : nat) (clock : Q)
    (evs : list Event) (L : Limiter) :
  steps self (Limiter_init n clock) evs = Some L →
  ∃ evs' L',
    steps self L evs' = Some L' ∧ Forall (λ pc, returned pc = true) (callers L').
Proof.
  intros Hsteps. apply can_return_all.
  by eapply lock_inv_steps; [apply lock_inv_init|].
Qed.

Lemma rate_limit_no_deadlock_witness :
  ∃ L evs' L',
    steps (BaseSource_init {| cfg_type := Some "rest"; cfg_key := Some "k";
                              cfg_name := None; cfg_rpm := Some 60%Q |})
      (Limiter_init 3 5) [Run 0; Run 1; Run 2; Run 1; Run 1] = Some L
    ∧ steps (BaseSource_init {| cfg_type := Some "rest"; cfg_key := Some "k";
                                cfg_name := None; cfg_rpm := Some 60%Q |})
        L evs' = Some L'
    ∧ Forall (λ pc, returned pc = true) (callers L').
Proof.
  eexists.
  destruct (rate_limit_no_deadlock
              (BaseSource_init {| cfg_type := Some "rest"; cfg_key := Some "k";
                                  cfg_name := None; cfg_rpm := Some 60%Q |})
              3 5 [Run 0; Run 1; Run 2; Run 1; Run 1] _ eq_refl) as (evs' & L' & H & HF).
  exists evs', L'. split; [reflexivity|]. split; [exact H|exact HF].
Defined.





(** ** Source files *)

Lemma normalize_normal (D : Disk) (raw : Raw) (filename : string) (s : SourceObj) :
  _normalize_single_source D raw filename = Some s → normal s.
Proof.
  unfold _normalize_single_source. destruct raw as [obj|]; [|done].
  destruct (is_False (obj_enabled obj)) eqn:Hen; [done|].
  destruct (known_type _) eqn:Htyp; [|done].
  destruct (truthy (obj_endpoint obj)) eqn:Hep; [|done]. simpl.
  intros [= <-]. unfold normal. simpl. repeat split; try done.
  eexists. split; [done|].
  destruct (truthy_str (or_empty (cfg_key (obj_cfg obj)))) eqn:Hk;
    [by apply truthy_str_true|].
  unfold known_type in Htyp.
  destruct (String.eqb_spec (lower (or_empty (cfg_type (obj_cfg obj)))) "rest") as [->|];
    [done|].
  destruct (String.eqb_spec (lower (or_empty (cfg_type (obj_cfg obj)))) "rss") as [->|];
    [done|].
  destruct (String.eqb_spec (lower (or_empty (cfg_type (obj_cfg obj)))) "html") as [->|];
    done.
Qed.

Lemma known_type_builds (c : SourceCfg) :
  known_type (lower (or_empty (cfg_type c))) = true ↔ is_Some (_build_source c).
Proof.
  unfold known_type, _build_source.
  destruct (String.eqb _ "rest"); [by split; eauto|].
  destruct (String.eqb _ "rss"); [by split; eauto|].
  destruct (String.eqb _ "html"); [by split; eauto|].
  split; [done|]. by intros [].
Qed.

Lemma normal_builds (s : SourceObj) : normal s → is_Some (_build_source (obj_cfg s)).
Proof. intros (_ & Htyp & _). by apply known_type_builds. Qed.

(** Every source the loader accepts is one the factory builds, under the
    key and the name the loader left in the config: the adapter's [key] is
    the config key (the one of the file, or [<type>:<stem of the file name>]
    when the file gave none) and its [name] the config name (the one of the
    file, or the key). *)
Theorem normalize_single_source_builds (D : Disk) (raw : Raw) (filename : string)
    (s : SourceObj) :
  _normalize_single_source D raw filename = Some s →
  ∃ src k n,
    _build_source (obj_cfg s) = Some src ∧
    cfg_key (obj_cfg s) = Some k ∧ key (base_of src) = k ∧ k ≠ "" ∧
    cfg_name (obj_cfg s) = Some n ∧ name (base_of src) = n.
Proof.
  intros Hs. pose proof (normalize_normal _ _ _ _ Hs) as Hn.
  destruct (normal_builds s Hn) as [src Hsrc].
  destruct Hn as (_ & _ & _ & (k & Hk & Hne) & (n & Hname)).
  exists src, k, n. split; [done|]. rewrite (build_source_base _ _ Hsrc).
  unfold BaseSource_init. simpl. rewrite Hk, Hname. simpl.
  apply truthy_str_true in Hne as Ht. by rewrite Ht.
Qed.

Lemma normalize_single_source_builds_witness :
  ∃ s src k n,
    _normalize_single_source (two_files YamlScalar YamlScalar)
      (RawDict (source_obj "RSS" None)) "a.yml" = Some s ∧
    k = "rss:a" ∧
    _build_source (obj_cfg s) = Some src ∧
    cfg_key (obj_cfg s) = Some k ∧ key (base_of src) = k ∧ k ≠ "" ∧
    cfg_name (obj_cfg s) = Some n ∧ name (base_of src) = n.
Proof.
  eexists.
  destruct (normalize_single_source_builds (two_files YamlScalar YamlScalar)
              (RawDict (source_obj "RSS" None)) "a.yml" _ eq_refl)
    as (src & k & n & Hsrc & Hk & Hkey & Hne & Hn & Hname).
  exists src, k, n. split; [reflexivity|]. split; [by injection Hk as <-|]. done.
Defined.

(** [_normalize_single_source] changes nothing in a source it returned:
    normalising the result again, under any file name, gives the result. *)
Theorem normalize_single_source_idempotent (D : Disk) (raw : Raw)
    (filename filename' : string) (s : SourceObj) :
  _normalize_single_source D raw filename = Some s →
  _normalize_single_source D (RawDict s) filename' = Some s.
Proof.
  intros (Hen & Htyp & Hep & (k & Hk & Hne) & (n & Hname))%normalize_normal.
  unfold _normalize_single_source. rewrite Hen, Htyp, Hep, Hk, Hname. simpl.
  apply truthy_str_true in Hne as ->.
  destruct s as [[ty ky nm rpm] en ep]. simpl in *. by subst.
Qed.

Lemma normalize_single_source_idempotent_witness :
  ∃ s,
    _normalize_single_source (two_files YamlScalar YamlScalar)
      (RawDict (source_obj "html" (Some ""))) "a.yml" = Some s ∧
    cfg_key (obj_cfg s) = Some "html:a" ∧
    _normalize_single_source (two_files YamlScalar YamlScalar) (RawDict s) "b.yaml" = Some s.
Proof.
  eexists. split; [reflexivity|]. split; [reflexivity|].
  by apply (normalize_single_source_idempotent (two_files YamlScalar YamlScalar)
              (RawDict (source_obj "html" (Some ""))) "a.yml" "b.yaml").
Defined.

Lemma normal_src_key (s : SourceObj) : normal s → src_key s = Ok (key_of s).
Proof. intros (_ & _ & _ & (k & Hk & _) & _). unfold src_key, key_of. by rewrite Hk. Qed.






Section Loader.

Variable D : Disk.



End Loader.





Lemma normalize_keyless (D : Disk) (a a' : SourceObj) (filename : string) :
  _normalize_single_source D (RawDict a) filename = Some a' → key_of a = "" →
  key_of a' = lower (or_empty (cfg_type (obj_cfg a))) +:+ ":" +:+ path_stem D filename
  ∧ normal a'.
Proof.
  intros Ha Hkey. split; [|by eapply normalize_normal].
  unfold _normalize_single_source in Ha. unfold key_of in Hkey. rewrite Hkey in Ha.
  repeat case_match; try done. by simplify_eq.
Qed.

(** Two sources without a key and of the same type in one file get the same
    key, [<type>:<stem of the file name>], with no number to tell them apart:
    the second takes the place of the first, which is lost without an entry
    in [errors]. *)
Theorem load_custom_sources_from_dir_keyless (D : Disk) (CONFIG : Config) (fp : string)
    (a b a' b' : SourceObj) :
  glob_sorted D (custom_dir D CONFIG) = [fp] →
  safe_load D fp = YamlSequence [RawDict a; RawDict b] →
  _normalize_single_source D (RawDict a) (basename D fp) = Some a' →
  _normalize_single_source D (RawDict b) (basename D fp) = Some b' →
  key_of a = "" → key_of b = "" →
  lower (or_empty (cfg_type (obj_cfg a))) = lower (or_empty (cfg_type (obj_cfg b))) →
  load_custom_sources_from_dir D CONFIG = Ok ([b'], []).
Proof.
  intros Hfiles Hdoc Ha Hb Hka Hkb Htyp.
  destruct (normalize_keyless D a a' _ Ha Hka) as [Hka' Hna].
  destruct (normalize_keyless D b b' _ Hb Hkb) as [Hkb' Hnb].
  assert (items_of (_load_yaml_file D fp) = [RawDict a; RawDict b]) as Hitems
    by (unfold _load_yaml_file; by rewrite Hdoc).
  unfold load_custom_sources_from_dir. rewrite Hfiles.
  change (load_files D [fp] [] []) with
    (match load_items D fp 0 (items_of (_load_yaml_file D fp)) [] [] with
     | Ok (sources', errors') => Ok (sources', errors')
     | Raise e => Raise e
     end).
  rewrite Hitems.
  change (load_items D fp 0 [RawDict a; RawDict b] [] []) with
    (match _normalize_single_source D (RawDict a) (basename D fp) with
     | None => load_items D fp 1 [RawDict b] []
                 ([] ++ ["skip_invalid:" +:+ fp +:+ "#" +:+ pretty 1%nat])
     | Some src =>
         match upsert [] src with
         | Ok sources' => load_items D fp 1 [RawDict b] sources' []
         | Raise e => Raise e
         end
     end).
  rewrite Ha. unfold upsert at 1. simpl exist_from. cbn [mbind result_bind].
  rewrite (normal_src_key a' Hna). cbn [mbind result_bind]. rewrite lookup_empty.
  change (load_items D fp 1 [RawDict b] ([] ++ [a']) []) with
    (match _normalize_single_source D (RawDict b) (basename D fp) with
     | None => Ok ([a'], [] ++ ["skip_invalid:" +:+ fp +:+ "#" +:+ pretty 2%nat])
     | Some src =>
         match upsert [a'] src with
         | Ok sources' => Ok (sources', [])
         | Raise e => Raise e
         end
     end).
  rewrite Hb. unfold upsert. simpl exist_from. rewrite (normal_src_key a' Hna).
  cbn [mbind result_bind]. rewrite (normal_src_key b' Hnb). cbn [mbind result_bind].
  assert (key_of b' = key_of a') as -> by (by rewrite Hka', Hkb', Htyp).
  by rewrite lookup_insert_eq.
Qed.

Lemma load_custom_sources_from_dir_keyless_witness :
  let D := two_files (YamlSequence [RawDict (source_obj "rss" None);
                                    RawDict {| obj_cfg := {| cfg_type := Some "RSS";
                                                             cfg_key := Some "";
                                                             cfg_name := Some "second";
                                                             cfg_rpm := None |};
                                               obj_enabled := PBool true;
                                               obj_endpoint := PStr "http://e/2" |}])
             YamlScalar in
  ∃ b',
    key_of b' = "rss:a" ∧ cfg_name (obj_cfg b') = Some "second" ∧
    load_custom_sources_from_dir
      {| getenv := getenv D; glob_sorted := λ _, ["config/custom.d/a.yml"];
         safe_load := safe_load D; basename := basename D; path_stem := path_stem D |}
      no_config = Ok ([b'], []).
Proof.
  intros D. eexists. split; [|split];
    [| |eapply (load_custom_sources_from_dir_keyless _ no_config "config/custom.d/a.yml");
        reflexivity];
    reflexivity.
Defined.

(** ** The list of all sources *)













(** ** The RSS adapter, continued *)

Section RssProps.

Variable E : Env.
Variable self : BaseSource.

Lemma mk_item_str (now : Z) (title url : string) (ts : Z) :
  ∃ x, _mk_item E self now (PStr title) (PStr url) (PInt ts) PNone = Ok x ∧
       Item.title x = normalize_text E title true ∧
       Item.url x = strip url ∧
       Item.rank x = PNone.
Proof. eexists. by split. Qed.

Lemma rss_loop_result (entries : list FeedEntry) (items : list Item.t) :
  match rss_loop E self entries items with
  | Ok out =>
      Forall (λ e, rss_kept e = true →
                   ∀ p, e_published_parsed e = Some p → ∃ t, mktime E p = Ok t) entries ∧
      ∃ new, out = items ++ new ∧
             Forall2 (λ e x,
                        Item.title x = normalize_text E (or_empty (e_title e)) true ∧
                        Item.url x = strip (or_empty (e_link e)) ∧
                        Item.rank x = PNone)
                     (filter (λ e, rss_kept e = true) entries) new
  | Raise err =>
      ∃ e p, e ∈ entries ∧ rss_kept e = true ∧ e_published_parsed e = Some p
             ∧ mktime E p = Raise err
  end.
Proof.
  revert items. induction entries as [|e l IH]; intros items.
  - simpl. split; [done|]. exists []. by rewrite app_nil_r.
  - rewrite rss_loop_cons. destruct (rss_kept e) eqn:Hk; cbn [negb].
    + rewrite filter_cons_True by done.
      destruct (e_published_parsed e) as [p|] eqn:Hp.
      * destruct (mktime E p) as [t|err] eqn:Ht; cbn [mbind result_bind].
        -- destruct (mk_item_str (e_now e) (or_empty (e_title e)) (or_empty (e_link e)) t)
             as (x & -> & Hx). cbn [mbind result_bind].
           specialize (IH (items ++ [x])).
           destruct (rss_loop E self l (items ++ [x])) as [out|err].
           ++ destruct IH as (Hl & new & -> & Hnew). split.
              ** constructor; [|done]. intros _ p' ?. assert (p' = p) as -> by congruence. eauto.
              ** exists (x :: new). rewrite <- app_assoc. split; [done|]. by constructor.
           ++ destruct IH as (e' & p' & He' & ?). exists e', p'.
              split; [by apply list_elem_of_further|done].
        -- exists e, p. split; [apply list_elem_of_here|done].
      * cbn [mbind result_bind].
        destruct (mk_item_str (e_now e) (or_empty (e_title e)) (or_empty (e_link e)) 0)
          as (x & -> & Hx). cbn [mbind result_bind].
        specialize (IH (items ++ [x])).
        destruct (rss_loop E self l (items ++ [x])) as [out|err].
        -- destruct IH as (Hl & new & -> & Hnew). split.
           ++ constructor; [|done]. intros _ p' ?. congruence.
           ++ exists (x :: new). rewrite <- app_assoc. split; [done|]. by constructor.
        -- destruct IH as (e' & p' & He' & ?). exists e', p'.
           split; [by apply list_elem_of_further|done].
    + rewrite filter_cons_False by congruence. specialize (IH items).
      destruct (rss_loop E self l items) as [out|err].
      * destruct IH as (Hl & Hnew). split; [|done]. constructor; [congruence|done].
      * destruct IH as (e' & p' & He' & ?). exists e', p'.
        split; [by apply list_elem_of_further|done].
Qed.

End RssProps.

(** Once the feed is parsed, the RSS adapter raises in one case only:
    [time.mktime] raises on the published time of an entry it keeps, and the
    error is that one.  Otherwise it returns one item for every entry with a
    title and a link, in feed order, with the title normalised, the link
    trimmed and no rank. *)
Theorem RssSource_fetch_returns (E : Env) (self : BaseSource) (entries : list FeedEntry) :
  match RssSource_fetch E self (RssFeed entries) with
  | Ok out =>
      Forall (λ e, rss_kept e = true →
                   ∀ p, e_published_parsed e = Some p → ∃ t, mktime E p = Ok t) entries ∧
      Forall2 (λ e x,
                 Item.title x = normalize_text E (or_empty (e_title e)) true ∧
                 Item.url x = strip (or_empty (e_link e)) ∧
                 Item.rank x = PNone)
              (filter (λ e, rss_kept e = true) entries) out
  | Raise err =>
      ∃ e p, e ∈ entries ∧ rss_kept e = true ∧ e_published_parsed e = Some p
             ∧ mktime E p = Raise err
  end.
Proof.
  simpl. pose proof (rss_loop_result E self entries []) as H.
  destruct (rss_loop E self entries []) as [out|err]; [|done].
  destruct H as (Hl & new & -> & Hnew). done.
Qed.

(** ** Timestamps, continued *)

(** [int(v)] on a float cuts the fraction off, towards zero: a finite float
    that is not above 10^12 gives the whole number of seconds nearest to it
    on the side of zero, so that -0.5 gives 0 and not -1. *)
Theorem parse_ts_float (E : Env) (now : Z) (q : Q) :
  (q <= inject_Z (10 ^ 12))%Q →
  ∃ t, parse_ts E now (PFloat (FFin q)) = Ok t ∧
       ((0 <= q)%Q → (inject_Z t <= q)%Q ∧ (q < inject_Z t + 1)%Q) ∧
       ((q <= 0)%Q → (inject_Z t - 1 < q)%Q ∧ (q <= inject_Z t)%Q).
Proof.
  intros Hq%Qle_bool_iff. simpl. rewrite Hq. eexists. split; [done|].
  unfold int_of_Q. destruct q as [n d].
  unfold Qle, Qlt, Qplus, Qminus, Qopp, inject_Z. simpl. split.
  - intros Hn. rewrite Z.mul_1_r in Hn.
    rewrite Z.quot_div_nonneg by lia.
    pose proof (Z.mul_div_le n (Z.pos d)). pose proof (Z.mul_succ_div_gt n (Z.pos d)).
    nia.
  - intros Hn. rewrite Z.mul_1_r in Hn.
    assert (n `quot` Z.pos d = - ((- n) `div` Z.pos d)) as ->.
    { rewrite <- (Z.opp_involutive n) at 1. rewrite Z.quot_opp_l by lia.
      by rewrite Z.quot_div_nonneg by lia. }
    rewrite ?Pos.mul_1_r.
    pose proof (Z.mul_div_le (- n) (Z.pos d)). pose proof (Z.mul_succ_div_gt (- n) (Z.pos d)).
    nia.
Qed.

Lemma parse_ts_float_witness :
  ∃ t, parse_ts offline_env 0 (PFloat (FFin (- (1 # 2)))) = Ok t ∧ t = 0 ∧
       ((0 <= - (1 # 2))%Q → (inject_Z t <= - (1 # 2))%Q ∧ (- (1 # 2) < inject_Z t + 1)%Q) ∧
       ((- (1 # 2) <= 0)%Q → (inject_Z t - 1 < - (1 # 2))%Q ∧ (- (1 # 2) <= inject_Z t)%Q).
Proof.
  destruct (parse_ts_float offline_env 0 (- (1 # 2))) as (t & Ht & Hpos & Hneg); [done|].
  exists t. split; [done|]. split; [|done]. by injection Ht as <-.
Defined.

(** ** A run of the loader *)

(** A directory with [a.yml], a sequence of a feed without key, a scalar
    and a page with key "x", and [b.yaml], which does not parse; a [CONFIG]
    with a disabled REST source of key "x", a source of an unknown type with
    key "y" and a source without key.  The directory gives the feed, under
    the key "rss:a", and the page, and two entries in [errors].  In the list
    of all sources the page has taken the place of the disabled source, the
    source of unknown type is kept, and the feed comes last. *)
Lemma get_all_custom_sources_run :
  let D := two_files
             (YamlSequence [RawDict (source_obj "RSS" None); RawOther;
                            RawDict (source_obj "html" (Some "x"))])
             (YamlRaises ValueError) in
  let CONFIG :=
    {| CUSTOM_DIR := None;
       CUSTOM_SOURCES :=
         Some [RawDict {| obj_cfg := typed_cfg "rest" "x"; obj_enabled := PBool false;
                          obj_endpoint := PStr "http://r/" |};
               RawDict (source_obj "xml" (Some "y"));
               RawDict (source_obj "rss" None)] |} in
  match load_custom_sources_from_dir D CONFIG, get_all_custom_sources D CONFIG with
  | Ok (_, errors), Ok all =>
      errors = ["skip_invalid:config/custom.d/a.yml#2"; "skip_invalid:config/custom.d/b.yaml#1"]
      ∧ (λ s, (key_of s, or_empty (cfg_type (obj_cfg s)))) <$> all
        = [("x", "html"); ("y", "xml"); ("rss:a", "RSS")]
  | _, _ => False
  end.
Proof. by vm_compute. Qed.
